(** * NocSonicMedia: the bridge-backed and the local-element-backed clients

    A shallow embedding of the two JavaScript files of the plugin:
    - [www/NocSonicMedia.js], the client that forwards every operation to
      native code through [cordova/exec] (module [Bridge]);
    - the browser client that drives an [Audio] element (module [Local]).

    Both keep a process-wide registry [mediaObjects] from handle id to
    handle object and a static dispatcher [onStatus].

    Modelling choices.
    - JavaScript numbers are IEEE binary64, here Rocq's primitive floats.
    - Handle objects live in a heap indexed by address; [mediaObjects] maps
      an id to an address, so two handles that happen to get the same id stay
      two objects.
    - The effects are written to a trace: every entry into [onStatus], every
      call of a user callback, every [console.error], every [exec] request
      and every operation on an audio element.
    - User callbacks are host functions: a call is recorded in the trace and
      returns.  Calling a value that is not a function raises a TypeError, as
      in JavaScript.
    - What belongs to the JavaScript engine or to the browser (string to
      number conversion, the audio element, the error-code constants of
      [NocSonicMediaError], the names [Object.prototype] defines) is a field
      of the class [Host].
    - [mediaObjects] is a plain object.  Its own keys are the map
      [mediaObjects] of the world.  For an id that is no key but a name the
      object inherits a truthy member for ([constructor], [toString], ...),
      [onStatus] runs its known-handle branch on that member, which is no
      handle: such a delivery is outside the model ([uncovered]), and the
      properties of unknown ids are stated for ids with [inherited i = false].
      A handle is constructed under an id [utils.createUUID()] returns.
    - The conversions [Number(v)], [v == 4] and [text + v] are total here:
      on an object they go through [ObjectToPrimitive], the primitive the
      engine finds.  In JavaScript they raise a TypeError on an object none
      of whose [valueOf] and [toString] is callable.  A property that fixes
      the outcome of a converting branch on an object value is therefore one
      of the objects that convert; that [onStatus] never raises is stated
      for primitive values.
    - The last lines of the bridge file, which open the native message
      channel on some platforms, are wiring of the host and are left out;
      what arrives on that channel is [onMessageFromNative]. *)

From Stdlib Require Import Floats ZArith Ascii.
From stdpp Require Import gmap strings list.

Open Scope string_scope.

(** ** JavaScript values *)

(** Functions and handle objects are known by a name and an address. *)
Abbreviation fname := nat.
Abbreviation addr := nat.

Inductive jsval :=
| VUndefined
| VNull
| VBool (b : bool)
| VNum (x : float)
| VStr (s : string)
| VFun (f : fname)
| VObj (fields : jsobj)
| VError (name message : string)
with jsobj :=
| ONil
| OCons (key : string) (value : jsval) (rest : jsobj).

(** The object literal [{ code: c }]. *)
Definition code_object (c : jsval) : jsval := VObj (OCons "code" c ONil).

Fixpoint own_property (o : jsobj) (key : string) : jsval :=
  match o with
  | ONil => VUndefined
  | OCons k v rest => if String.eqb k key then v else own_property rest key
  end.

(** ToBoolean. *)
Definition truthy (v : jsval) : bool :=
  match v with
  | VUndefined | VNull => false
  | VBool b => b
  | VNum x => negb (PrimFloat.is_zero x || PrimFloat.is_nan x)
  | VStr s => negb (String.eqb s "")
  | VFun _ | VObj _ | VError _ _ => true
  end.

(** [a || b] on values. *)
Definition js_or (a b : jsval) : jsval := if truthy a then a else b.

(** [utils.typeName]: the class name of [Object.prototype.toString]. *)
Definition typeName (v : jsval) : string :=
  match v with
  | VUndefined => "Undefined"
  | VNull => "Null"
  | VBool _ => "Boolean"
  | VNum _ => "Number"
  | VStr _ => "String"
  | VFun _ => "Function"
  | VObj _ => "Object"
  | VError _ _ => "Error"
  end.

(** [v === n] for a number literal [n]. *)
Definition strict_eq_num (v : jsval) (n : float) : bool :=
  match v with
  | VNum x => PrimFloat.eqb x n
  | _ => false
  end.

Definition TypeError (message : string) : jsval := VError "TypeError" message.

(** Reading a property of [undefined] or [null]. *)
Definition read_of_undefined (prop : string) : jsval :=
  TypeError ("Cannot read property '" ++ prop ++ "' of undefined").
Definition write_of_undefined (prop : string) : jsval :=
  TypeError ("Cannot set property '" ++ prop ++ "' of undefined").
Definition not_a_function : jsval := TypeError "not a function".

(** How an evaluation ends: normally with a value, or by raising. *)
Inductive completion (A : Type) :=
| Normal (a : A)
| Throw (e : jsval).
Arguments Normal {A} a.
Arguments Throw {A} e.

(** ** The host: JavaScript engine, browser and sibling modules *)

Class Host := {
  (** ECMAScript's StringToNumber. *)
  StringToNumber : string → float;
  (** ECMAScript's ToPrimitive on a function or an object. *)
  ObjectToPrimitive : jsval → jsval;
  (** The browser's audio element and its operations; each may raise. *)
  elem : Type;
  new_Audio : completion elem;
  set_src : jsval → elem → completion elem;
  node_play : elem → completion elem;
  node_pause : elem → completion elem;
  get_currentTime : elem → completion jsval;
  set_currentTime : jsval → elem → completion elem;
  set_volume : jsval → elem → completion elem;
  (** The two constants of [NocSonicMediaError] the local client reads. *)
  MEDIA_ERR_ABORTED : float;
  MEDIA_ERR_SRC_NOT_SUPPORTED : float;
  (** [inherited i]: the plain object [mediaObjects] has a truthy member of
      the name [i] on its prototype chain ([Object.prototype]). *)
  inherited : string → bool;
}.

(** The names ECMAScript (with its annex B) gives [Object.prototype]; each is
    a function, [__proto__] reads as the prototype object itself. *)
Definition Object_prototype_names : list string :=
  ["constructor"; "__proto__"; "hasOwnProperty"; "isPrototypeOf";
   "propertyIsEnumerable"; "toLocaleString"; "toString"; "valueOf";
   "__defineGetter__"; "__defineSetter__"; "__lookupGetter__";
   "__lookupSetter__"].

Definition Object_prototype_defines (i : string) : bool :=
  existsb (String.eqb i) Object_prototype_names.

(** ** Message and state codes *)

Definition MEDIA_STATE : float := 1.
Definition MEDIA_DURATION : float := 2.
Definition MEDIA_POSITION : float := 3.
Definition MEDIA_ERROR : float := 9.

Definition MEDIA_NONE : float := 0.
Definition MEDIA_STARTING : float := 1.
Definition MEDIA_RUNNING : float := 2.
Definition MEDIA_PAUSED : float := 3.
Definition MEDIA_STOPPED : float := 4.
Definition MEDIA_MSG : list string :=
  ["None"; "Starting"; "Running"; "Paused"; "Stopped"].

(** The [switch (msgType)] of [onStatus]: cases are tried in source order
    with strict equality. *)
Inductive msg_case := CaseState | CaseDuration | CaseError | CasePosition | CaseDefault.

Definition switch_msgType (msgType : jsval) : msg_case :=
  if strict_eq_num msgType MEDIA_STATE then CaseState
  else if strict_eq_num msgType MEDIA_DURATION then CaseDuration
  else if strict_eq_num msgType MEDIA_ERROR then CaseError
  else if strict_eq_num msgType MEDIA_POSITION then CasePosition
  else CaseDefault.

(** ** [cordova/argscheck]

    [argscheck.checkArgs(spec, functionName, args)] is Cordova's: one letter
    of [spec] per argument, the first letter of the expected class
    (S string, F function, ...); a lower-case letter makes the argument
    required, an upper-case letter also accepts [null] and [undefined];
    [*] accepts anything.  The first argument that does not fit makes it
    raise a TypeError whose message names the parameter. *)

Definition typeMap (c : ascii) : option string :=
  if Ascii.eqb c "A" then Some "Array"
  else if Ascii.eqb c "D" then Some "Date"
  else if Ascii.eqb c "N" then Some "Number"
  else if Ascii.eqb c "S" then Some "String"
  else if Ascii.eqb c "F" then Some "Function"
  else if Ascii.eqb c "O" then Some "Object"
  else None.

Definition toUpperCase (c : ascii) : ascii :=
  let n := nat_of_ascii c in
  if (97 <=? n)%nat && (n <=? 122)%nat then ascii_of_nat (n - 32) else c.

Definition is_nullish (v : jsval) : bool :=
  match v with VUndefined | VNull => true | _ => false end.

Definition arg_fits (c : ascii) (arg : jsval) : bool :=
  if Ascii.eqb c "*" then true
  else if is_nullish arg && Ascii.eqb c (toUpperCase c) then true
  else match typeMap (toUpperCase c) with
       | Some t => String.eqb (typeName arg) t
       | None => false
       end.

(** The index of the first argument that does not fit, if any. *)
Fixpoint first_misfit (spec : list ascii) (args : list jsval) (i : nat) : option nat :=
  match spec with
  | [] => None
  | c :: spec' =>
      if arg_fits c (hd VUndefined args) then first_misfit spec' (tl args) (S i)
      else Some i
  end.

Definition quote : string := String (ascii_of_nat 34) EmptyString.

Definition paramNames : list string :=
  ["src"; "successCallback"; "errorCallback"; "statusCallback"].

Definition checkArgs_message (spec : list ascii) (functionName : string)
    (args : list jsval) (i : nat) : string :=
  let c := default "*"%char (spec !! i) in
  "Wrong type for parameter " ++ quote ++ default "" (paramNames !! i) ++ quote
    ++ " of " ++ functionName ++ ": Expected "
    ++ default "undefined" (typeMap (toUpperCase c))
    ++ ", but got " ++ typeName (nth i args VUndefined) ++ ".".

(** [None] when the arguments fit, otherwise the message of the TypeError. *)
Definition checkArgs (spec : string) (functionName : string) (args : list jsval)
    : option string :=
  let spec := String.list_ascii_of_string spec in
  match first_misfit spec args 0 with
  | None => None
  | Some i => Some (checkArgs_message spec functionName args i)
  end.

(** ** Handles, the world and the evaluation monad *)

(** The success continuations the bridge client hands to [exec]. *)
Inductive continuation :=
| KNull
| KStop (me : addr)                           (* function() { me._position = 0; } *)
| KSeekTo (me : addr)                         (* function(p) { me._position = p; } *)
| KGetCurrentPosition (me : addr) (success : jsval).

Inductive nodeop :=
| NNew
| NSetSrc (v : jsval)
| NPlay
| NPause
| NGetCurrentTime
| NSetCurrentTime (v : jsval)
| NSetVolume (v : jsval).

Inductive event :=
| EvOnStatus (id : string) (msgType value : jsval)
| EvCall (f : fname) (args : list jsval)
| EvConsoleError (text : string) (arg : jsval)
| EvExec (success : continuation) (fail : jsval) (service action : string)
    (args : list jsval)
| EvNode (op : nodeop).

Section Model.
Context {host : Host}.

Record handle := Handle {
  id : string;
  src : jsval;
  successCallback : jsval;
  errorCallback : jsval;
  statusCallback : jsval;
  _duration : jsval;
  _position : jsval;
  node : option elem;
}.

Definition set_duration (v : jsval) (h : handle) : handle :=
  Handle (id h) (src h) (successCallback h) (errorCallback h) (statusCallback h)
    v (_position h) (node h).
Definition set_position (v : jsval) (h : handle) : handle :=
  Handle (id h) (src h) (successCallback h) (errorCallback h) (statusCallback h)
    (_duration h) v (node h).
Definition set_node (n : option elem) (h : handle) : handle :=
  Handle (id h) (src h) (successCallback h) (errorCallback h) (statusCallback h)
    (_duration h) (_position h) n.

Record world := World {
  heap : list handle;
  mediaObjects : gmap string addr;
  trace : list event;
}.

Definition M (A : Type) : Type := world → option (completion A * world).

Definition ret {A} (a : A) : M A := λ w, Some (Normal a, w).
Definition throw {A} (e : jsval) : M A := λ w, Some (Throw e, w).
(** A step the model does not cover. *)
Definition uncovered {A} : M A := λ _, None.
Definition bind {A B} (m : M A) (k : A → M B) : M B :=
  λ w, match m w with
       | Some (Normal a, w') => k a w'
       | Some (Throw e, w') => Some (Throw e, w')
       | None => None
       end.
Definition try_catch {A} (m : M A) (handler : jsval → M A) : M A :=
  λ w, match m w with
       | Some (Throw e, w') => handler e w'
       | r => r
       end.

Definition emit (e : event) : M unit :=
  λ w, Some (Normal tt, World (heap w) (mediaObjects w) (trace w ++ [e])).

(** Reading and updating the object at an address; undefined on an address
    that holds no handle. *)
Definition load (a : addr) : M handle :=
  λ w, match heap w !! a with
       | Some h => Some (Normal h, w)
       | None => None
       end.
Definition store (a : addr) (f : handle → handle) : M unit :=
  λ w, match heap w !! a with
       | Some h => Some (Normal tt, World (<[a := f h]> (heap w)) (mediaObjects w) (trace w))
       | None => None
       end.

(** The object a constructor starts from, once [this.id] is set. *)
Definition blank (i : string) : handle :=
  Handle i VUndefined VUndefined VUndefined VUndefined VUndefined VUndefined None.

(** The assignments [this.src = src; ...; this._position = -1]. *)
Definition init_fields (args : list jsval) (h : handle) : handle :=
  Handle (id h) (nth 0 args VUndefined) (nth 1 args VUndefined)
    (nth 2 args VUndefined) (nth 3 args VUndefined)
    (VNum (-1)) (VNum (-1)) (node h).

(** [new]: a fresh object at the next address. *)
Definition alloc (h : handle) : M addr :=
  λ w, Some (Normal (length (heap w)), World (heap w ++ [h]) (mediaObjects w) (trace w)).

(** [mediaObjects[id]] and [mediaObjects[id] = this], on the own keys of
    [mediaObjects] (see [inherited] for the other names). *)
Definition registry_get (i : string) : M (option addr) :=
  λ w, Some (Normal (mediaObjects w !! i), w).
Definition registry_set (i : string) (a : addr) : M unit :=
  λ w, Some (Normal tt, World (heap w) (<[i := a]> (mediaObjects w)) (trace w)).

(** The outcome of a host operation, recorded in the trace. *)
Definition host_op {A} (op : nodeop) (r : completion A) : M A :=
  λ w, Some (r, World (heap w) (mediaObjects w) (trace w ++ [EvNode op])).

End Model.

Declare Scope js_scope.
Delimit Scope js_scope with js.
Notation "'do' x <- m ; k" := (bind m (λ x, k))
  (at level 10, x name, m at level 100, k at level 200) : js_scope.
Notation "m ;; k" := (bind m (λ _, k))
  (at level 100, k at level 200, right associativity) : js_scope.
Open Scope js_scope.

Section Shared.
Context {host : Host}.

(** [f(args)]: a function is called, anything else raises. *)
Definition call (f : jsval) (args : list jsval) : M unit :=
  match f with
  | VFun g => emit (EvCall g args)
  | _ => throw not_a_function
  end.

(** [f && f(args)]. *)
Definition call_if_set (f : jsval) (args : list jsval) : M unit :=
  if truthy f then call f args else ret tt.

(** ToNumber, on the values that convert (see the modelling choices). *)
Definition PrimitiveToNumber (v : jsval) : float :=
  match v with
  | VUndefined => PrimFloat.nan
  | VNull => 0
  | VBool b => if b then 1 else 0
  | VNum x => x
  | VStr s => StringToNumber s
  | VFun _ | VObj _ | VError _ _ => PrimFloat.nan
  end%float.

Definition ToNumber (v : jsval) : float :=
  match v with
  | VFun _ | VObj _ | VError _ _ => PrimitiveToNumber (ObjectToPrimitive v)
  | _ => PrimitiveToNumber v
  end.

(** [v == n] for a number literal [n]: numbers are compared as they are,
    strings and booleans after ToNumber, [undefined] and [null] are equal to
    no number, objects after ToPrimitive. *)
Definition loose_eq_prim (v : jsval) (n : float) : bool :=
  match v with
  | VNum x => PrimFloat.eqb x n
  | VStr s => PrimFloat.eqb (StringToNumber s) n
  | VBool b => PrimFloat.eqb (if b then 1 else 0)%float n
  | _ => false
  end.

Definition loose_eq_num (v : jsval) (n : float) : bool :=
  match v with
  | VFun _ | VObj _ | VError _ _ => loose_eq_prim (ObjectToPrimitive v) n
  | _ => loose_eq_prim v n
  end.

(** [console.error && console.error(text + arg)]. *)
Definition console_error (text : string) (arg : jsval) : M unit :=
  emit (EvConsoleError text arg).

(** A call whose result the caller drops. *)
Definition forget {A} (m : M A) : M unit := do _ <- m; ret tt.

(** A call made by the application or by the host: the world it leaves
    behind, whether it returned or raised.  A method call on an address that
    holds no handle is no call at all and leaves the world as it is; so
    does, here, a delivery the model does not cover (it changes no handle
    and no entry of the registry). *)
Definition after (m : M unit) (w : world) : world :=
  match m w with
  | Some (_, w') => w'
  | None => w
  end.

End Shared.

(** ** The bridge-backed client, [www/NocSonicMedia.js] *)

Module Bridge.
Section Bridge.
Context {host : Host}.

(** [cordova/exec]: the request is handed to the native side; the
    continuation runs later, if the native side answers (see [resume]). *)
Definition exec (success : continuation) (fail : jsval) (service action : string)
    (args : list jsval) : M unit :=
  emit (EvExec success fail service action args).

(** The constructor, over the request primitive [request] it is given for
    [exec]; [uuid] is what [utils.createUUID()] returns. *)
Definition NocSonicMedia_over
    (request : continuation → jsval → string → string → list jsval → M unit)
    (args : list jsval) (uuid : string) : M addr :=
  match checkArgs "sFFF" "NocSonicMedia" args with
  | Some message => throw (TypeError message)
  | None =>
      do this <- alloc (blank uuid);
      registry_set uuid this ;;
      store this (init_fields args) ;;
      do me <- load this;
      request KNull (errorCallback me) "NocSonicMedia" "create" [VStr (id me); src me] ;;
      ret this
  end.

(** The constructor of the file: the request primitive is [exec]. *)
Definition NocSonicMedia (args : list jsval) (uuid : string) : M addr :=
  NocSonicMedia_over exec args uuid.

Definition get (i : string) : M (option addr) := registry_get i.

Definition play (this : addr) (options : jsval) : M unit :=
  do me <- load this;
  exec KNull VNull "NocSonicMedia" "startPlayingAudio" [VStr (id me); src me; options].

Definition stop (this : addr) : M unit :=
  do me <- load this;
  exec (KStop this) (errorCallback me) "NocSonicMedia" "stopPlayingAudio" [VStr (id me)].

Definition seekTo (this : addr) (milliseconds : jsval) : M unit :=
  do me <- load this;
  exec (KSeekTo this) (errorCallback me) "NocSonicMedia" "seekToAudio"
    [VStr (id me); milliseconds].

Definition pause (this : addr) : M unit :=
  do me <- load this;
  exec KNull (errorCallback me) "NocSonicMedia" "pausePlayingAudio" [VStr (id me)].

Definition getDuration (this : addr) : M jsval :=
  do me <- load this;
  ret (_duration me).

Definition getCurrentPosition (this : addr) (success fail : jsval) : M unit :=
  do me <- load this;
  exec (KGetCurrentPosition this success) fail "NocSonicMedia"
    "getCurrentPositionAudio" [VStr (id me)].

Definition startRecord (this : addr) : M unit :=
  do me <- load this;
  exec KNull (errorCallback me) "NocSonicMedia" "startRecordingAudio"
    [VStr (id me); src me].

Definition stopRecord (this : addr) : M unit :=
  do me <- load this;
  exec KNull (errorCallback me) "NocSonicMedia" "stopRecordingAudio" [VStr (id me)].

Definition release (this : addr) : M unit :=
  do me <- load this;
  exec KNull (errorCallback me) "NocSonicMedia" "release" [VStr (id me)].

Definition setVolume (this : addr) (volume : jsval) : M unit :=
  do me <- load this;
  exec KNull VNull "NocSonicMedia" "setVolume" [VStr (id me); volume].

(** The native side answers a request: its success continuation runs with
    the payload [p]. *)
Definition resume (k : continuation) (p : jsval) : M unit :=
  match k with
  | KNull => ret tt
  | KStop me => store me (set_position (VNum 0))
  | KSeekTo me => store me (set_position p)
  | KGetCurrentPosition me success =>
      store me (set_position p) ;;
      call success [p]
  end.

Definition onStatus (i : string) (msgType value : jsval) : M unit :=
  emit (EvOnStatus i msgType value) ;;
  do media <- registry_get i;
  match media with
  | Some a =>
      do m <- load a;
      match switch_msgType msgType with
      | CaseState =>
          call_if_set (statusCallback m) [value] ;;
          if loose_eq_num value MEDIA_STOPPED
          then call_if_set (successCallback m) []
          else ret tt
      | CaseDuration => store a (set_duration value)
      | CaseError => call_if_set (errorCallback m) [value]
      | CasePosition => store a (set_position (VNum (ToNumber value)))
      | CaseDefault => console_error "Unhandled NocSonicMedia.onStatus :: " msgType
      end
  | None =>
      if inherited i
      then uncovered
      else console_error
             "Received NocSonicMedia.onStatus callback for unknown media :: " (VStr i)
  end.

(** A message of the native channel: [{action, status: {id, msgType, value}}]. *)
Record message := Message {
  action : string;
  status_id : string;
  status_msgType : jsval;
  status_value : jsval;
}.

Definition onMessageFromNative (msg : message) : M unit :=
  if String.eqb (action msg) "status"
  then onStatus (status_id msg) (status_msgType msg) (status_value msg)
  else throw (VError "Error" ("Unknown media action" ++ action msg)).

(** What the application and the native side can do with the client. *)
Inductive op :=
| New (args : list jsval) (uuid : string)
| Get (i : string)
| Play (this : addr) (options : jsval)
| Stop (this : addr)
| SeekTo (this : addr) (milliseconds : jsval)
| Pause (this : addr)
| GetDuration (this : addr)
| GetCurrentPosition (this : addr) (success fail : jsval)
| StartRecord (this : addr)
| StopRecord (this : addr)
| Release (this : addr)
| SetVolume (this : addr) (volume : jsval)
| Resume (k : continuation) (p : jsval)
| OnStatus (i : string) (msgType value : jsval)
| OnMessageFromNative (msg : message).

Definition perform (o : op) : M unit :=
  match o with
  | New args uuid => forget (NocSonicMedia args uuid)
  | Get i => forget (get i)
  | Play this options => play this options
  | Stop this => stop this
  | SeekTo this ms => seekTo this ms
  | Pause this => pause this
  | GetDuration this => forget (getDuration this)
  | GetCurrentPosition this success fail => getCurrentPosition this success fail
  | StartRecord this => startRecord this
  | StopRecord this => stopRecord this
  | Release this => release this
  | SetVolume this volume => setVolume this volume
  | Resume k p => resume k p
  | OnStatus i msgType value => onStatus i msgType value
  | OnMessageFromNative msg => onMessageFromNative msg
  end.

(** A session: the calls are made one after the other; a call that raises
    leaves the world as it was when it raised. *)
Fixpoint run (ops : list op) (w : world) : world :=
  match ops with
  | [] => w
  | o :: ops' => run ops' (after (perform o) w)
  end.

(** The call constructs a handle under the id [uuid]. *)
Definition constructs (uuid : string) (o : op) : bool :=
  match o with
  | New _ u => String.eqb u uuid
  | _ => false
  end.

End Bridge.
End Bridge.

(** ** The local-element-backed client *)

Module Local.
Section Local.
Context {host : Host}.

Definition onStatus (i : string) (msgType value : jsval) : M unit :=
  emit (EvOnStatus i msgType value) ;;
  do media <- registry_get i;
  match media with
  | Some a =>
      do m <- load a;
      match switch_msgType msgType with
      | CaseState =>
          call_if_set (statusCallback m) [value] ;;
          if strict_eq_num value MEDIA_STOPPED
          then call_if_set (successCallback m) []
          else ret tt
      | CaseDuration => store a (set_duration value)
      | CaseError => call_if_set (errorCallback m) [value]
      | CasePosition => store a (set_position (VNum (ToNumber value)))
      | CaseDefault => console_error "Unhandled NocSonicMedia.onStatus :: " msgType
      end
  | None =>
      if inherited i
      then uncovered
      else console_error
             "Received NocSonicMedia.onStatus callback for unknown media :: " (VStr i)
  end.

(** [onStatus(this.id, msgType, value)]. *)
Definition notify (this : addr) (msgType : float) (value : jsval) : M unit :=
  do me <- load this;
  onStatus (id me) (VNum msgType) value.

(** [{ code: NocSonicMediaError.MEDIA_ERR_ABORTED }]. *)
Definition aborted : jsval := code_object (VNum MEDIA_ERR_ABORTED).

(** [new Audio()], the five handlers (see [fire]) and the source. *)
Definition createNode (media : addr) : M elem :=
  do n <- host_op NNew new_Audio;
  do m <- load media;
  if truthy (src m)
  then host_op (NSetSrc (src m)) (set_src (src m) n)
  else ret n.

(** [try { this.node = createNode(this); } catch (err) { ... aborted ... }]. *)
Definition build_node (this : addr) : M unit :=
  try_catch
    (do n <- createNode this;
     store this (set_node (Some n)))
    (λ _, notify this MEDIA_ERROR aborted).

Definition NocSonicMedia (args : list jsval) (uuid : string) : M addr :=
  match checkArgs "SFFF" "NocSonicMedia" args with
  | Some message => throw (TypeError message)
  | None =>
      do this <- alloc (blank uuid);
      registry_set uuid this ;;
      store this (init_fields args) ;;
      notify this MEDIA_STATE (VNum MEDIA_STARTING) ;;
      build_node this ;;
      ret this
  end.

(** [this.node], as the receiver of a property access: raises when the
    element is absent. *)
Definition this_node (this : addr) (error : jsval) : M elem :=
  do me <- load this;
  match node me with
  | Some n => ret n
  | None => throw error
  end.

Definition play (this : addr) : M unit :=
  do me <- load this;
  match node me with
  | Some _ => ret tt
  | None => build_node this
  end ;;
  do n <- this_node this (read_of_undefined "play");
  do n' <- host_op NPlay (node_play n);
  store this (set_node (Some n')).

Definition seekTo (this : addr) (milliseconds : jsval) : M unit :=
  try_catch
    (do n <- this_node this (write_of_undefined "currentTime");
     let t := VNum (ToNumber milliseconds / 1000) in
     do n' <- host_op (NSetCurrentTime t) (set_currentTime t n);
     store this (set_node (Some n')))
    (λ err, notify this MEDIA_ERROR err).

Definition pause (this : addr) : M unit :=
  try_catch
    (do n <- this_node this (read_of_undefined "pause");
     do n' <- host_op NPause (node_pause n);
     store this (set_node (Some n')) ;;
     notify this MEDIA_STATE (VNum MEDIA_PAUSED))
    (λ err, notify this MEDIA_ERROR err).

Definition stop (this : addr) : M unit :=
  try_catch
    (pause this ;;
     seekTo this (VNum 0) ;;
     notify this MEDIA_STATE (VNum MEDIA_STOPPED))
    (λ err, notify this MEDIA_ERROR err).

Definition getDuration (this : addr) : M jsval :=
  do me <- load this;
  ret (_duration me).

Definition getCurrentPosition (this : addr) (success fail : jsval) : M unit :=
  try_catch
    (do n <- this_node this (read_of_undefined "currentTime");
     do p <- host_op NGetCurrentTime (get_currentTime n);
     notify this MEDIA_POSITION p ;;
     call success [p])
    (λ err, call fail [err]).

Definition startRecord (this : addr) : M unit :=
  notify this MEDIA_ERROR (VStr "Not supported").

Definition stopRecord (this : addr) : M unit :=
  notify this MEDIA_ERROR (VStr "Not supported").

Definition release (this : addr) : M unit :=
  try_catch
    (store this (set_node None))
    (λ err, notify this MEDIA_ERROR err).

Definition setVolume (this : addr) (volume : jsval) : M unit :=
  do n <- this_node this (write_of_undefined "volume");
  do n' <- host_op (NSetVolume volume) (set_volume volume n);
  store this (set_node (Some n')).

(** The events of the element [createNode] listens to; [durationchange]
    carries [e.target.duration] and [error] carries [e.target.error]. *)
Inductive nodeevent :=
| loadstart
| playing
| durationchange (duration : jsval)
| error (err : jsval)
| ended.

(** [x.code]. *)
Definition get_code (x : jsval) : M jsval :=
  match x with
  | VUndefined | VNull => throw (read_of_undefined "code")
  | VObj o => ret (own_property o "code")
  | _ => ret VUndefined
  end.

(** The handler [createNode media] installed for the event. *)
Definition fire (media : addr) (e : nodeevent) : M unit :=
  match e with
  | loadstart => notify media MEDIA_STATE (VNum MEDIA_STARTING)
  | playing => notify media MEDIA_STATE (VNum MEDIA_RUNNING)
  | durationchange duration =>
      notify media MEDIA_DURATION (js_or duration (VNum (-1)))
  | error err =>
      do code <- get_code err;
      notify media MEDIA_ERROR
        (if strict_eq_num code MEDIA_ERR_SRC_NOT_SUPPORTED then aborted else err)
  | ended => notify media MEDIA_STATE (VNum MEDIA_STOPPED)
  end.

Inductive op :=
| New (args : list jsval) (uuid : string)
| Play (this : addr)
| Stop (this : addr)
| SeekTo (this : addr) (milliseconds : jsval)
| Pause (this : addr)
| GetDuration (this : addr)
| GetCurrentPosition (this : addr) (success fail : jsval)
| StartRecord (this : addr)
| StopRecord (this : addr)
| Release (this : addr)
| SetVolume (this : addr) (volume : jsval)
| OnStatus (i : string) (msgType value : jsval)
| Fire (media : addr) (e : nodeevent).

Definition perform (o : op) : M unit :=
  match o with
  | New args uuid => forget (NocSonicMedia args uuid)
  | Play this => play this
  | Stop this => stop this
  | SeekTo this ms => seekTo this ms
  | Pause this => pause this
  | GetDuration this => forget (getDuration this)
  | GetCurrentPosition this success fail => getCurrentPosition this success fail
  | StartRecord this => startRecord this
  | StopRecord this => stopRecord this
  | Release this => release this
  | SetVolume this volume => setVolume this volume
  | OnStatus i msgType value => onStatus i msgType value
  | Fire media e => fire media e
  end.

Fixpoint run (ops : list op) (w : world) : world :=
  match ops with
  | [] => w
  | o :: ops' => run ops' (after (perform o) w)
  end.

Definition constructs (uuid : string) (o : op) : bool :=
  match o with
  | New _ u => String.eqb u uuid
  | _ => false
  end.

End Local.
End Local.

(** ** What the properties are stated with *)

Section Observations.
Context {host : Host}.

Definition empty_world : world := World [] ∅ [].

(** The world with more events in its trace and nothing else changed. *)
Definition log (es : list event) (w : world) : world :=
  World (heap w) (mediaObjects w) (trace w ++ es).

(** The events of [f && f(args)] for a callback that is a function or unset. *)
Definition calls (f : jsval) (args : list jsval) : list event :=
  match f with
  | VFun g => [EvCall g args]
  | _ => []
  end.

Definition is_string (v : jsval) : bool :=
  match v with VStr _ => true | _ => false end.
Definition optional_string (v : jsval) : bool :=
  match v with VStr _ | VUndefined | VNull => true | _ => false end.
Definition optional_function (v : jsval) : bool :=
  match v with VFun _ | VUndefined | VNull => true | _ => false end.

Definition optional_callbacks (args : list jsval) : bool :=
  optional_function (nth 1 args VUndefined)
  && optional_function (nth 2 args VUndefined)
  && optional_function (nth 3 args VUndefined).

(** [(source: string, onSuccess?, onError?, onStatus?)]. *)
Definition required_source_signature (args : list jsval) : bool :=
  is_string (nth 0 args VUndefined) && optional_callbacks args.

(** [(source?: string, onSuccess?, onError?, onStatus?)]. *)
Definition optional_source_signature (args : list jsval) : bool :=
  optional_string (nth 0 args VUndefined) && optional_callbacks args.

(** The handle at [a] is the one the registry gives for its id. *)
Definition registered (w : world) (a : addr) (h : handle) : Prop :=
  heap w !! a = Some h ∧ mediaObjects w !! id h = Some a.

(** The registry resolves the id [i] to the handle [h]. *)
Definition resolves (w : world) (i : string) (h : handle) : Prop :=
  ∃ a, mediaObjects w !! i = Some a ∧ heap w !! a = Some h.

(** The events of a notification to [h], callbacks included. *)
Definition state_notification (h : handle) (state : float) : list event :=
  EvOnStatus (id h) (VNum MEDIA_STATE) (VNum state)
    :: calls (statusCallback h) [VNum state].
Definition error_notification (h : handle) (err : jsval) : list event :=
  EvOnStatus (id h) (VNum MEDIA_ERROR) err :: calls (errorCallback h) [err].

(** Every entry of the registry leads to a handle that carries the entry's
    key as its id. *)
Definition well_formed (w : world) : Prop :=
  ∀ j b, mediaObjects w !! j = Some b → ∃ h, heap w !! b = Some h ∧ id h = j.

(** The value of a Duration message for [uuid], if the event is the
    delivery of one. *)
Definition duration_message (uuid : string) (e : event) : option jsval :=
  match e with
  | EvOnStatus i msgType value =>
      if String.eqb i uuid then
        match switch_msgType msgType with
        | CaseDuration => Some value
        | _ => None
        end
      else None
  | _ => None
  end.

(** The value of the last Duration message for [uuid] among [es], or [d]
    when there is none. *)
Fixpoint last_duration (uuid : string) (es : list event) (d : jsval) : jsval :=
  match es with
  | [] => d
  | e :: es' => last_duration uuid es' (default d (duration_message uuid e))
  end.

(** Events without a Duration message. *)
Definition silent (es : list event) : Prop :=
  ∀ uuid d, last_duration uuid es d = d.

(** An event that is not a Duration message, whoever it is for. *)
Definition no_duration (e : event) : Prop :=
  ∀ uuid, duration_message uuid e = None.

(** An update of a handle that keeps its id and its cached duration. *)
Definition benign (f : handle → handle) : Prop :=
  ∀ h, id (f h) = id h ∧ _duration (f h) = _duration h.

(** Every run of [m] relates the world before to the world after. *)
Definition preserves (R : relation world) {A} (m : M A) : Prop :=
  ∀ w r w', m w = Some (r, w') → R w w'.

(** A relation between worlds that the steps of the clients stay within:
    logging an event that is no Duration message, logging the delivery of a
    message nobody is registered for, a benign update of a handle, and the
    delivery of a Duration message to the handle the registry gives. *)
Class Frame (R : relation world) := {
  frame_preorder :: PreOrder R;
  frame_log w e : no_duration e → R w (log [e] w);
  frame_unknown w i msgType value :
    mediaObjects w !! i = None → R w (log [EvOnStatus i msgType value] w);
  frame_store w a h f :
    heap w !! a = Some h → benign f →
    R w (World (<[a := f h]> (heap w)) (mediaObjects w) (trace w));
  frame_duration w i msgType value a h :
    mediaObjects w !! i = Some a → heap w !! a = Some h →
    switch_msgType msgType = CaseDuration →
    R w (World (<[a := set_duration value h]> (heap w)) (mediaObjects w)
           (trace w ++ [EvOnStatus i msgType value]));
}.

(** From [w] to [w'] the id [i] stays a key of the registry. *)
Definition keeps (i : string) : relation world :=
  λ w w', is_Some (mediaObjects w !! i) → is_Some (mediaObjects w' !! i).

(** From [w] to [w'] the registry stays well formed. *)
Definition sound : relation world :=
  λ w w', well_formed w → well_formed w'.

(** The handle at [this] carries the id [uuid] and is the one the registry
    gives for it. *)
Definition anchored (uuid : string) (this : addr) (w : world) : Prop :=
  ∃ h, heap w !! this = Some h ∧ id h = uuid ∧ mediaObjects w !! uuid = Some this.

(** From [w] to [w'] the handle stays registered under its id. *)
Definition stays (uuid : string) (this : addr) : relation world :=
  λ w w', anchored uuid this w → anchored uuid this w'.

Definition tracked (uuid : string) (this : addr) (w : world) : Prop :=
  well_formed w ∧ anchored uuid this w.

(** From [w] to [w'] the tracked handle stays registered, and its cached
    duration is the last one the Duration messages for [uuid] carried. *)
Definition follows (uuid : string) (this : addr) : relation world :=
  λ w w',
    tracked uuid this w →
    tracked uuid this w'
    ∧ ∃ es, trace w' = (trace w ++ es)%list
            ∧ _duration <$> heap w' !! this
              = last_duration uuid es <$> (_duration <$> heap w !! this).

(** The world after an accepted constructor call: the new handle [h] at the
    next address, registered under [u], and the events [es]. *)
Definition constructed (u : string) (h : handle) (es : list event) (w : world)
    : world :=
  World (heap w ++ [h]) (<[u := length (heap w)]> (mediaObjects w)) (trace w ++ es).

(** The events [w'] has after those of [w]. *)
Definition events_since (w w' : world) : list event :=
  drop (length (trace w)) (trace w').

End Observations.

(** ** Two hosts to run the clients on *)

Record audio := Audio {
  audio_src : jsval;
  currentTime : jsval;
  volume : jsval;
  paused : bool;
}.

Definition digit (c : ascii) : option float :=
  let n := nat_of_ascii c in
  if (48 <=? n)%nat && (n <=? 57)%nat
  then nth_error [0; 1; 2; 3; 4; 5; 6; 7; 8; 9]%float (n - 48)
  else None.

Fixpoint decimal (s : string) (acc : float) : float :=
  match s with
  | EmptyString => acc
  | String c s' =>
      match digit c with
      | Some d => decimal s' (acc * 10 + d)%float
      | None => PrimFloat.nan
      end
  end.

(** A browser with a working audio element.  Its StringToNumber reads
    strings of decimal digits and gives NaN on the rest. *)
Definition browser : Host := {|
  StringToNumber s := decimal s 0;
  ObjectToPrimitive _ := VStr "[object Object]";
  elem := audio;
  new_Audio := Normal (Audio (VStr "") (VNum 0) (VNum 1) true);
  set_src v n := Normal (Audio v (currentTime n) (volume n) (paused n));
  node_play n := Normal (Audio (audio_src n) (currentTime n) (volume n) false);
  node_pause n := Normal (Audio (audio_src n) (currentTime n) (volume n) true);
  get_currentTime n := Normal (currentTime n);
  set_currentTime v n := Normal (Audio (audio_src n) v (volume n) (paused n));
  set_volume v n := Normal (Audio (audio_src n) (currentTime n) v (paused n));
  MEDIA_ERR_ABORTED := 1;
  MEDIA_ERR_SRC_NOT_SUPPORTED := 4;
  inherited := Object_prototype_defines;
|}.

(** The same, where [new Audio()] raises. *)
Definition no_audio : Host := {|
  StringToNumber s := decimal s 0;
  ObjectToPrimitive _ := VStr "[object Object]";
  elem := audio;
  new_Audio := Throw (VError "ReferenceError" "Audio is not defined");
  set_src v n := Normal (Audio v (currentTime n) (volume n) (paused n));
  node_play n := Normal (Audio (audio_src n) (currentTime n) (volume n) false);
  node_pause n := Normal (Audio (audio_src n) (currentTime n) (volume n) true);
  get_currentTime n := Normal (currentTime n);
  set_currentTime v n := Normal (Audio (audio_src n) v (volume n) (paused n));
  set_volume v n := Normal (Audio (audio_src n) (currentTime n) v (paused n));
  MEDIA_ERR_ABORTED := 1;
  MEDIA_ERR_SRC_NOT_SUPPORTED := 4;
  inherited := Object_prototype_defines;
|}.

(** The browser, where [play()] of the element raises: playback is refused. *)
Definition refusing : Host := {|
  StringToNumber s := decimal s 0;
  ObjectToPrimitive _ := VStr "[object Object]";
  elem := audio;
  new_Audio := Normal (Audio (VStr "") (VNum 0) (VNum 1) true);
  set_src v n := Normal (Audio v (currentTime n) (volume n) (paused n));
  node_play n := Throw (VError "NotAllowedError" "play() failed");
  node_pause n := Normal (Audio (audio_src n) (currentTime n) (volume n) true);
  get_currentTime n := Normal (currentTime n);
  set_currentTime v n := Normal (Audio (audio_src n) v (volume n) (paused n));
  set_volume v n := Normal (Audio (audio_src n) (currentTime n) v (paused n));
  MEDIA_ERR_ABORTED := 1;
  MEDIA_ERR_SRC_NOT_SUPPORTED := 4;
  inherited := Object_prototype_defines;
|}.

(** A session on each host: a handle for "track.mp3" with its three
    callbacks, constructed in the empty world, and then released. *)
Definition track_args : list jsval := [VStr "track.mp3"; VFun 1; VFun 2; VFun 3].

Definition studio : @world browser :=
  after (forget (@Local.NocSonicMedia browser track_args "u1")) empty_world.
Definition track : @handle browser :=
  @Handle browser "u1" (VStr "track.mp3") (VFun 1) (VFun 2) (VFun 3) (VNum (-1)) (VNum (-1))
    (Some (Audio (VStr "track.mp3") (VNum 0) (VNum 1) true)).
Definition released_studio : @world browser := after (Local.release 0) studio.

Definition deaf_studio : @world no_audio :=
  after (Local.release 0)
    (after (forget (@Local.NocSonicMedia no_audio track_args "u1")) empty_world).
Definition deaf_track : @handle no_audio :=
  @Handle no_audio "u1" (VStr "track.mp3") (VFun 1) (VFun 2) (VFun 3) (VNum (-1)) (VNum (-1)) None.

Definition refused_studio : @world refusing :=
  after (Local.release 0)
    (after (forget (@Local.NocSonicMedia refusing track_args "u1")) empty_world).
Definition refused_track : @handle refusing :=
  @Handle refusing "u1" (VStr "track.mp3") (VFun 1) (VFun 2) (VFun 3) (VNum (-1)) (VNum (-1))
    (Some (Audio (VStr "track.mp3") (VNum 0) (VNum 1) true)).

(** ** More to state properties with *)

Section MoreObservations.
Context {host : Host}.

Definition is_function (v : jsval) : bool :=
  match v with VFun _ => true | _ => false end.

(** The handle at [a] replaced by [h], and the events [es] logged. *)
Definition updated (a : addr) (h : handle) (es : list event) (w : world) : world :=
  World (<[a := h]> (heap w)) (mediaObjects w) (trace w ++ es).

(** [d || -1], the duration a [durationchange] event delivers. *)
Definition delivered_duration (d : jsval) : jsval :=
  if truthy d then d else VNum (-1).

(** The calls of the bridge client that only ask the native side. *)
Definition is_request (o : Bridge.op) : bool :=
  match o with
  | Bridge.Play _ _ | Bridge.Stop _ | Bridge.SeekTo _ _ | Bridge.Pause _
  | Bridge.GetCurrentPosition _ _ _ | Bridge.StartRecord _ | Bridge.StopRecord _
  | Bridge.Release _ | Bridge.SetVolume _ _ => true
  | _ => false
  end.

(** A request to the native side, and one to its "NocSonicMedia" service. *)
Definition is_exec (e : event) : bool :=
  match e with EvExec _ _ _ _ _ => true | _ => false end.
Definition asks_media_service (e : event) : bool :=
  match e with
  | EvExec _ _ service _ _ => String.eqb service "NocSonicMedia"
  | _ => false
  end.

(** What a handle is made with: its id, its source and its callbacks. *)
Definition same_identity (h h' : handle) : Prop :=
  id h' = id h ∧ src h' = src h ∧ successCallback h' = successCallback h
  ∧ errorCallback h' = errorCallback h ∧ statusCallback h' = statusCallback h.

(** From [w] to [w'] every handle stays at its address, made as it was. *)
Definition keeps_identity : relation world :=
  λ w w', ∀ a h, heap w !! a = Some h →
    ∃ h', heap w' !! a = Some h' ∧ same_identity h h'.

(** The world of a constructor once it has made [this], registered it and
    set its fields. *)
Definition initialised (u : string) (args : list jsval) (w : world) : world :=
  World (heap w ++ [init_fields args (blank u)])
    (<[u := length (heap w)]> (mediaObjects w)) (trace w).

Definition is_node_event (e : event) : bool :=
  match e with EvNode _ => true | _ => false end.

(** No handle holds an element and no element was ever operated. *)
Definition elementless (w : world) : Prop :=
  (∀ a h, heap w !! a = Some h → node h = None)
  ∧ Forall (λ e, is_node_event e = false) (trace w).

(** No request was ever sent to the native side. *)
Definition requestless (w : world) : Prop :=
  Forall (λ e, is_exec e = false) (trace w).

(** Every handle's callbacks are functions or unset. *)
Definition callbacks_checked (w : world) : Prop :=
  ∀ a h, heap w !! a = Some h →
    optional_function (successCallback h) = true
    ∧ optional_function (errorCallback h) = true
    ∧ optional_function (statusCallback h) = true.

(** What the constructors leave true of every world: the registry is well
    formed and the callbacks are checked. *)
Definition checked (w : world) : Prop := well_formed w ∧ callbacks_checked w.

(** Undefined, null, a boolean, a number or a string: the values every
    conversion of JavaScript takes without raising. *)
Definition is_primitive (v : jsval) : bool :=
  match v with
  | VUndefined | VNull | VBool _ | VNum _ | VStr _ => true
  | VFun _ | VObj _ | VError _ _ => false
  end.

(** The id is a key of the registry, or no name the registry object
    inherits: a delivery for it is within the model. *)
Definition covered (w : world) (i : string) : Prop :=
  mediaObjects w !! i = None → inherited i = false.

(** A checked world in which the handle at [this] is registered. *)
Definition good (this : addr) (w : world) : Prop :=
  checked w ∧ ∃ me, registered w this me.

(** From a good world [m] ends, normally or by raising, in a good world;
    and it ends normally. *)
Definition ends (this : addr) {A} (m : M A) : Prop :=
  ∀ w, good this w → ∃ r w', m w = Some (r, w') ∧ good this w'.
Definition returns (this : addr) {A} (m : M A) : Prop :=
  ∀ w, good this w → ∃ x w', m w = Some (Normal x, w') ∧ good this w'.

End MoreObservations.

(** The session of the bridge client that constructs the same handle. *)
Definition bridge_studio : @world browser :=
  after (forget (@Bridge.NocSonicMedia browser track_args "u1")) empty_world.
Definition bridge_track : @handle browser :=
  @Handle browser "u1" (VStr "track.mp3") (VFun 1) (VFun 2) (VFun 3) (VNum (-1))
    (VNum (-1)) None.
(** The element of [track], and the events of its construction. *)
Definition track_audio : @elem browser :=
  Audio (VStr "track.mp3") (VNum 0) (VNum 1) true.
Definition track_made : list event :=
  [EvOnStatus "u1" (VNum MEDIA_STATE) (VNum MEDIA_STARTING); EvCall 3 [VNum MEDIA_STARTING];
   EvNode NNew; EvNode (NSetSrc (VStr "track.mp3"))].

(** * Properties *)

(** ** Evaluating the clients on a symbolic world *)

Lemma lookup_new {host : Host} (l : list handle) (x : handle) :
  (l ++ [x])%list !! length l = Some x.
Proof. by apply list_lookup_middle. Qed.

Lemma insert_new {host : Host} (l : list handle) (x y : handle) :
  <[length l := y]> (l ++ [x])%list = (l ++ [y])%list.
Proof.
  rewrite insert_app_r_alt by lia. by rewrite Nat.sub_diag.
Qed.

Ltac js_unfold :=
  unfold Local.NocSonicMedia, Bridge.NocSonicMedia, Bridge.NocSonicMedia_over,
    Local.startRecord, Local.stopRecord, Local.setVolume, Local.release,
    Local.getCurrentPosition, Local.getDuration, Local.stop, Local.pause,
    Local.seekTo, Local.play, Local.this_node, Local.build_node,
    Local.createNode, Local.notify, Local.onStatus,
    Bridge.onStatus, Bridge.getDuration, Bridge.exec,
    console_error, call_if_set, call, forget,
    bind, try_catch, ret, throw, emit, load, store, alloc, registry_get,
    registry_set, host_op.

Ltac js_eval :=
  repeat first
    [ progress simpl
    | match goal with H : _ !! _ = _ |- _ => rewrite H end
    | match goal with H : node _ = _ |- _ => rewrite H end
    | match goal with H : strict_eq_num _ _ = _ |- _ => rewrite H end
    | match goal with H : loose_eq_num _ _ = _ |- _ => rewrite H end
    | match goal with H : new_Audio = _ |- _ => rewrite H end
    | match goal with H : checkArgs _ _ _ = _ |- _ => rewrite H end
    | match goal with H : inherited _ = _ |- _ => rewrite H end
    | match goal with H : nth _ _ _ = _ |- _ => rewrite H end
    | rewrite lookup_new
    | rewrite insert_new
    | rewrite lookup_insert_eq
    | match goal with H : statusCallback _ = _ |- _ => rewrite H end
    | match goal with H : successCallback _ = _ |- _ => rewrite H end
    | match goal with H : errorCallback _ = _ |- _ => rewrite H end ].

Lemma world_eq {host : Host} (h : list handle) (r : gmap string addr)
    (t1 t2 : list event) :
  t1 = t2 → World h r t1 = World h r t2.
Proof. by intros ->. Qed.

(** Closes [Some (c, w1) = Some (c, w2)] for worlds that differ in how their
    traces are bracketed. *)
Ltac js_done :=
  unfold log, state_notification, error_notification; simpl;
  apply (f_equal Some); apply (f_equal (pair _)); apply world_eq;
  rewrite <- ?app_assoc; simpl; rewrite ?app_nil_r; reflexivity.

(** Case analysis on a callback that is a function or unset. *)
Ltac js_callback f :=
  let E := fresh "E" in
  unfold state_notification, error_notification;
  destruct f eqn:E; try discriminate.

Section Dispatch.
Context {host : Host}.
Implicit Types (w : world) (m h : handle) (i : string).

Lemma log_nil w : log [] w = w.
Proof. destruct w; unfold log; simpl. by rewrite app_nil_r. Qed.

Lemma store_same w a h :
  heap w !! a = Some h →
  World (<[a := h]> (heap w)) (mediaObjects w) (trace w) = w.
Proof. intros Hh. rewrite list_insert_id by done. by destruct w. Qed.

Lemma set_node_same h : node h = None → set_node None h = h.
Proof. destruct h; simpl; by intros ->. Qed.

(** C1. Delivering State = Stopped to a registered handle calls its
    [statusCallback] with Stopped and then its [successCallback] once, with
    no argument; delivering a value the client does not take for Stopped
    calls [statusCallback] only.  The callbacks are optional: one that is
    unset is skipped. *)
Theorem onStatus_stopped_then_success w i m :
  resolves w i m →
  optional_function (statusCallback m) = true →
  optional_function (successCallback m) = true →
  let state := VNum MEDIA_STATE in
  let stopped := VNum MEDIA_STOPPED in
  let completed :=
    log (EvOnStatus i state stopped
           :: calls (statusCallback m) [stopped] ++ calls (successCallback m) []) w in
  Bridge.onStatus i state stopped w = Some (Normal tt, completed)
  ∧ Local.onStatus i state stopped w = Some (Normal tt, completed)
  ∧ (∀ v, loose_eq_num v MEDIA_STOPPED = false →
       Bridge.onStatus i state v w
       = Some (Normal tt, log (EvOnStatus i state v :: calls (statusCallback m) [v]) w))
  ∧ (∀ v, strict_eq_num v MEDIA_STOPPED = false →
       Local.onStatus i state v w
       = Some (Normal tt, log (EvOnStatus i state v :: calls (statusCallback m) [v]) w)).
Proof.
  intros (a & Hr & Hh) Hstatus Hsuccess; simpl.
  js_callback (statusCallback m); js_callback (successCallback m);
    (repeat split; [| | intros v Hv | intros v Hv]); js_unfold; js_eval; js_done.
Qed.


(** C7. Delivering an Error message to a registered handle calls its
    [errorCallback] once with the payload as it came, and nothing else: the
    heap, hence every cached duration and position, is unchanged. *)
Theorem onStatus_error_calls_errorCallback w i m payload :
  resolves w i m →
  optional_function (errorCallback m) = true →
  let reported :=
    log (EvOnStatus i (VNum MEDIA_ERROR) payload
           :: calls (errorCallback m) [payload]) w in
  Bridge.onStatus i (VNum MEDIA_ERROR) payload w = Some (Normal tt, reported)
  ∧ Local.onStatus i (VNum MEDIA_ERROR) payload w = Some (Normal tt, reported)
  ∧ heap reported = heap w.
Proof.
  intros (a & Hr & Hh) Herror; simpl.
  js_callback (errorCallback m); repeat split; js_unfold; js_eval; js_done.
Qed.

(** C5. On the local client [startRecord] and [stopRecord] are one Error
    notification with the payload "Not supported": [errorCallback] is called
    when set, and the element is not touched (no [EvNode] event, same
    heap). *)
Theorem record_is_not_supported w this me :
  registered w this me →
  optional_function (errorCallback me) = true →
  let refused := log (error_notification me (VStr "Not supported")) w in
  Local.startRecord this w = Some (Normal tt, refused)
  ∧ Local.stopRecord this w = Some (Normal tt, refused)
  ∧ heap refused = heap w.
Proof.
  intros [Hh Hr] Herror; simpl.
  js_callback (errorCallback me); repeat split; js_unfold; js_eval; js_done.
Qed.

(** C9. The two [onStatus] differ on the text "4": the bridge client, which
    compares with [==], takes it for Stopped and calls [successCallback];
    the local client, which compares with [===], does not.  On every number
    the two agree. *)
Theorem onStatus_variants_differ_on_text w i m f g :
  StringToNumber "4" = 4%float →
  resolves w i m →
  statusCallback m = VFun f →
  successCallback m = VFun g →
  let state := VNum MEDIA_STATE in
  Bridge.onStatus i state (VStr "4") w
  = Some (Normal tt, log [EvOnStatus i state (VStr "4");
                          EvCall f [VStr "4"]; EvCall g []] w)
  ∧ Local.onStatus i state (VStr "4") w
    = Some (Normal tt, log [EvOnStatus i state (VStr "4"); EvCall f [VStr "4"]] w)
  ∧ (∀ w' j msgType x,
       Bridge.onStatus j msgType (VNum x) w' = Local.onStatus j msgType (VNum x) w').
Proof.
  intros Hfour (a & Hr & Hh) Hstatus Hsuccess; simpl.
  split; [| split; [| reflexivity]]; js_unfold; js_eval;
    rewrite ?Hfour; js_eval; js_done.
Qed.

End Dispatch.

(** ** The constructors *)

Section Constructors.
Context {host : Host}.
Implicit Types (w : world) (args : list jsval) (uuid : string).

Lemma arg_fits_required_string v : arg_fits "s" v = is_string v.
Proof. by destruct v. Qed.

Lemma arg_fits_optional_string v : arg_fits "S" v = optional_string v.
Proof. by destruct v. Qed.

Lemma arg_fits_optional_function v : arg_fits "F" v = optional_function v.
Proof. by destruct v. Qed.

Lemma hd_tl_nth args :
  hd VUndefined args = nth 0 args VUndefined
  ∧ hd VUndefined (tl args) = nth 1 args VUndefined
  ∧ hd VUndefined (tl (tl args)) = nth 2 args VUndefined
  ∧ hd VUndefined (tl (tl (tl args))) = nth 3 args VUndefined.
Proof. by destruct args as [|? [|? [|? [|? ?]]]]. Qed.

(** [checkArgs('sFFF', ...)] accepts exactly the required-source signature. *)
Lemma checkArgs_sFFF args :
  if required_source_signature args
  then checkArgs "sFFF" "NocSonicMedia" args = None
  else ∃ message, checkArgs "sFFF" "NocSonicMedia" args = Some message.
Proof.
  unfold required_source_signature, optional_callbacks, checkArgs.
  destruct (hd_tl_nth args) as (<- & <- & <- & <-).
  cbn [String.list_ascii_of_string first_misfit].
  rewrite arg_fits_required_string, !arg_fits_optional_function.
  destruct (is_string _); simpl; [| by eexists].
  repeat (destruct (optional_function _); simpl; [| by eexists]).
  reflexivity.
Qed.

(** [checkArgs('SFFF', ...)] accepts exactly the optional-source signature. *)
Lemma checkArgs_SFFF args :
  if optional_source_signature args
  then checkArgs "SFFF" "NocSonicMedia" args = None
  else ∃ message, checkArgs "SFFF" "NocSonicMedia" args = Some message.
Proof.
  unfold optional_source_signature, optional_callbacks, checkArgs.
  destruct (hd_tl_nth args) as (<- & <- & <- & <-).
  cbn [String.list_ascii_of_string first_misfit].
  rewrite arg_fits_optional_string, !arg_fits_optional_function.
  destruct (optional_string _); simpl; [| by eexists].
  repeat (destruct (optional_function _); simpl; [| by eexists]).
  reflexivity.
Qed.

Lemma silent_nil : silent [].
Proof. by intros ? ?. Qed.

Lemma silent_cons e es :
  (∀ uuid, duration_message uuid e = None) → silent es → silent (e :: es).
Proof. intros He Hes uuid d. simpl. rewrite He. apply Hes. Qed.

Lemma silent_status i (msgType : float) value :
  switch_msgType (VNum msgType) ≠ CaseDuration →
  ∀ uuid, duration_message uuid (EvOnStatus i (VNum msgType) value) = None.
Proof.
  intros Hcase uuid. simpl. destruct (String.eqb i uuid); [| done].
  by destruct (switch_msgType (VNum msgType)).
Qed.

Ltac js_silent :=
  repeat first
    [ apply silent_nil
    | apply silent_cons; [ first [ by apply silent_status | reflexivity ] |] ].

(** An accepted call of the bridge constructor: a new handle at a new
    address, registered under [uuid], and the "create" request. *)
Lemma bridge_new_accepted args uuid w :
  required_source_signature args = true →
  Bridge.NocSonicMedia args uuid w
  = Some (Normal (length (heap w)),
          World (heap w ++ [init_fields args (blank uuid)])
            (<[uuid := length (heap w)]> (mediaObjects w))
            (trace w ++ [EvExec KNull (nth 2 args VUndefined) "NocSonicMedia"
                           "create" [VStr uuid; nth 0 args VUndefined]])).
Proof.
  intros Hsig. pose proof (checkArgs_sFFF args) as Hcheck.
  rewrite Hsig in Hcheck. js_unfold. js_eval. reflexivity.
Qed.

Lemma bridge_new_rejected args uuid w :
  required_source_signature args = false →
  ∃ message, Bridge.NocSonicMedia args uuid w = Some (Throw (TypeError message), w).
Proof.
  intros Hsig. pose proof (checkArgs_sFFF args) as Hcheck.
  rewrite Hsig in Hcheck. destruct Hcheck as [message Hcheck].
  exists message. js_unfold. js_eval. reflexivity.
Qed.

(** An accepted call of the local constructor: a new handle at a new
    address, registered under [uuid], with or without its element, after a
    Starting notification and no Duration message. *)
Lemma local_new_accepted args uuid w :
  optional_source_signature args = true →
  ∃ n es,
    Local.NocSonicMedia args uuid w
    = Some (Normal (length (heap w)),
            World (heap w ++ [set_node n (init_fields args (blank uuid))])
              (<[uuid := length (heap w)]> (mediaObjects w))
              (trace w ++ es))
    ∧ silent es.
Proof.
  intros Hsig. pose proof (checkArgs_SFFF args) as Hcheck.
  rewrite Hsig in Hcheck.
  apply andb_true_iff in Hsig as [_ Hsig]. unfold optional_callbacks in Hsig.
  apply andb_true_iff in Hsig as [Hsig Hstatus].
  apply andb_true_iff in Hsig as [_ Herror].
  js_unfold. js_eval.
  destruct (nth 3 args VUndefined) eqn:E3; try discriminate;
    destruct (nth 2 args VUndefined) eqn:E2; try discriminate;
    js_eval;
    (destruct new_Audio as [n|e] eqn:Hnew; js_eval;
     [ destruct (truthy (nth 0 args VUndefined)); js_eval;
       [ destruct (set_src (nth 0 args VUndefined) n) as [n'|e] eqn:Hsrc; js_eval |]
     |]);
    eexists _, _; (split; [ unfold set_node, init_fields; simpl;
                            apply (f_equal Some); apply (f_equal (pair _));
                            apply world_eq; rewrite <- ?app_assoc; simpl; reflexivity
                          | js_silent ]).
Qed.

(** The same, with its events: the Starting notification to the new
    handle, the operations on the element, and the "aborted" Error
    notification when the element could not be built. *)
Lemma local_new_starts args uuid w :
  optional_source_signature args = true →
  let me := init_fields args (blank uuid) in
  ∃ n ops reported,
    Local.NocSonicMedia args uuid w
    = Some (Normal (length (heap w)),
            constructed uuid (set_node n me)
              (state_notification me MEDIA_STARTING ++ map EvNode ops ++ reported) w)
    ∧ (reported = [] ∨ reported = error_notification me Local.aborted).
Proof.
  intros Hsig. pose proof (checkArgs_SFFF args) as Hcheck.
  rewrite Hsig in Hcheck.
  apply andb_true_iff in Hsig as [_ Hsig]. unfold optional_callbacks in Hsig.
  apply andb_true_iff in Hsig as [Hsig Hstatus].
  apply andb_true_iff in Hsig as [_ Herror].
  simpl. unfold constructed.
  assert (∀ n ops reported,
            Local.NocSonicMedia args uuid w
            = Some (Normal (length (heap w)),
                    World (heap w ++ [set_node n (init_fields args (blank uuid))])
                      (<[uuid := length (heap w)]> (mediaObjects w))
                      (trace w
                         ++ state_notification (init_fields args (blank uuid)) MEDIA_STARTING
                         ++ map EvNode ops ++ reported)) →
            (reported = []
             ∨ reported = error_notification (init_fields args (blank uuid)) Local.aborted) →
            ∃ n ops reported,
              Local.NocSonicMedia args uuid w
              = Some (Normal (length (heap w)),
                      World (heap w ++ [set_node n (init_fields args (blank uuid))])
                        (<[uuid := length (heap w)]> (mediaObjects w))
                        (trace w
                           ++ state_notification (init_fields args (blank uuid)) MEDIA_STARTING
                           ++ map EvNode ops ++ reported))
              ∧ (reported = []
                 ∨ reported = error_notification (init_fields args (blank uuid)) Local.aborted))
    as Hgive by eauto 6.
  destruct new_Audio as [n|e] eqn:Hnew;
    [ destruct (truthy (nth 0 args VUndefined)) eqn:Hsrc;
      [ destruct (set_src (nth 0 args VUndefined) n) as [n'|e] eqn:Hset;
        [ apply (Hgive (Some n') [NNew; NSetSrc (nth 0 args VUndefined)] []); [| by left]
        | apply (Hgive None [NNew; NSetSrc (nth 0 args VUndefined)]
                   (error_notification (init_fields args (blank uuid)) Local.aborted));
          [| by right] ]
      | apply (Hgive (Some n) [NNew] []); [| by left] ]
    | apply (Hgive None [NNew]
               (error_notification (init_fields args (blank uuid)) Local.aborted));
      [| by right] ];
    (destruct (nth 3 args VUndefined) eqn:E3; try discriminate;
     destruct (nth 2 args VUndefined) eqn:E2; try discriminate;
     js_unfold; js_eval; rewrite ?Hsrc; js_eval; rewrite ?Hset; js_eval;
     unfold state_notification, error_notification, init_fields; simpl;
     rewrite ?E2, ?E3; simpl;
     apply (f_equal Some); apply (f_equal (pair _)); apply world_eq;
     rewrite <- ?app_assoc; reflexivity).
Qed.

Lemma local_new_rejected args uuid w :
  optional_source_signature args = false →
  ∃ message, Local.NocSonicMedia args uuid w = Some (Throw (TypeError message), w).
Proof.
  intros Hsig. pose proof (checkArgs_SFFF args) as Hcheck.
  rewrite Hsig in Hcheck. destruct Hcheck as [message Hcheck].
  exists message. js_unfold. js_eval. reflexivity.
Qed.

End Constructors.

(** ** Steps that stay within a frame *)

Section Framing.
Context {host : Host} (R : relation world) `{!Frame R}.
Implicit Types (w : world) (i : string) (a this : addr).

Lemma preserves_ret {A} (x : A) : preserves R (ret x).
Proof. intros w r w' [= <- <-]. reflexivity. Qed.

Lemma preserves_throw {A} (e : jsval) : preserves R (throw (A := A) e).
Proof. intros w r w' [= <- <-]. reflexivity. Qed.

Lemma preserves_bind {A B} (m : M A) (k : A → M B) :
  preserves R m → (∀ x, preserves R (k x)) → preserves R (bind m k).
Proof.
  intros Hm Hk w r w' Hrun. unfold bind in Hrun.
  destruct (m w) as [[[x|e] w1]|] eqn:Hmw; [| | done].
  - etransitivity; [by eapply Hm | by eapply Hk].
  - injection Hrun as <- <-. by eapply Hm.
Qed.

Lemma preserves_try_catch {A} (m : M A) (handler : jsval → M A) :
  preserves R m → (∀ e, preserves R (handler e)) → preserves R (try_catch m handler).
Proof.
  intros Hm Hh w r w' Hrun. unfold try_catch in Hrun.
  destruct (m w) as [[[x|e] w1]|] eqn:Hmw; [| | done].
  - injection Hrun as <- <-. by eapply Hm.
  - etransitivity; [by eapply Hm | by eapply Hh].
Qed.

Lemma preserves_emit e : no_duration e → preserves R (emit e).
Proof. intros He w r w' [= <- <-]. by apply frame_log. Qed.

Lemma preserves_host_op {A} op (c : completion A) : preserves R (host_op op c).
Proof. intros w r w' [= <- <-]. by apply (frame_log w (EvNode op)). Qed.

Lemma preserves_load a : preserves R (load a).
Proof.
  intros w r w' Hrun. unfold load in Hrun.
  destruct (heap w !! a); [| done]. injection Hrun as <- <-. reflexivity.
Qed.

Lemma preserves_registry_get i : preserves R (registry_get i).
Proof. intros w r w' [= <- <-]. reflexivity. Qed.

Lemma preserves_uncovered {A} : preserves R (@uncovered _ A).
Proof. by intros w r w' Hrun. Qed.

Lemma preserves_store a f : benign f → preserves R (store a f).
Proof.
  intros Hf w r w' Hrun. unfold store in Hrun.
  destruct (heap w !! a) eqn:Hh; [| done]. injection Hrun as <- <-.
  by apply frame_store.
Qed.

Lemma preserves_call f args : preserves R (call f args).
Proof.
  destruct f; try apply preserves_throw. by apply preserves_emit.
Qed.

Lemma preserves_call_if_set f args : preserves R (call_if_set f args).
Proof.
  unfold call_if_set. destruct (truthy f);
    [apply preserves_call | apply preserves_ret].
Qed.

Lemma preserves_console_error text arg : preserves R (console_error text arg).
Proof. by apply preserves_emit. Qed.

Lemma preserves_forget {A} (m : M A) : preserves R m → preserves R (forget m).
Proof. intros Hm. apply preserves_bind; [done | intros; apply preserves_ret]. Qed.

Lemma preserves_after (m : M unit) w : preserves R m → R w (after m w).
Proof.
  intros Hm. unfold after. destruct (m w) as [[r w']|] eqn:Hrun; [| reflexivity].
  by eapply Hm.
Qed.

Lemma benign_set_position v : benign (set_position v).
Proof. by intros h. Qed.

Lemma benign_set_node n : benign (set_node n).
Proof. by intros h. Qed.

Ltac frame_step :=
  first
    [ apply preserves_ret
    | apply preserves_throw
    | apply preserves_uncovered
    | apply preserves_load
    | apply preserves_registry_get
    | apply preserves_host_op
    | apply preserves_call_if_set
    | apply preserves_call
    | apply preserves_console_error
    | apply preserves_store; first [apply benign_set_position | apply benign_set_node]
    | apply preserves_emit; done
    | apply preserves_forget
    | apply preserves_bind; [| intros ?]
    | apply preserves_try_catch; [| intros ?]
    | assumption
    | match goal with
      | |- preserves _ (match ?x with _ => _ end) => destruct x
      end ].

Ltac frame := repeat frame_step.

(** The part of [onStatus] after the lookup, for a message that is no
    Duration message. *)
Lemma no_duration_status i msgType value :
  switch_msgType msgType ≠ CaseDuration →
  no_duration (EvOnStatus i msgType value).
Proof.
  intros Hcase uuid. simpl. destruct (String.eqb i uuid); [| done].
  by destruct (switch_msgType msgType).
Qed.

Lemma bind_inv {A B} (m : M A) (k : A → M B) w r w' :
  bind m k w = Some (r, w') →
  (∃ x w1, m w = Some (Normal x, w1) ∧ k x w1 = Some (r, w'))
  ∨ (∃ e, m w = Some (Throw e, w') ∧ r = Throw e).
Proof.
  unfold bind. destruct (m w) as [[[x|e] w1]|]; [| | done].
  - intros Hk. left. by exists x, w1.
  - intros [= <- <-]. right. by exists e.
Qed.

(** Entering [onStatus]: the delivery is logged and the id looked up. *)
Lemma onStatus_enter {A} i msgType value (k : option addr → M A) w r w' :
  bind (emit (EvOnStatus i msgType value)) (λ _, bind (registry_get i) k) w
  = Some (r, w') →
  k (mediaObjects w !! i) (log [EvOnStatus i msgType value] w) = Some (r, w').
Proof. done. Qed.

Lemma load_inv {A} a (k : handle → M A) w r w' :
  bind (load a) k w = Some (r, w') →
  ∃ h, heap w !! a = Some h ∧ k h w = Some (r, w').
Proof.
  unfold bind, load. destruct (heap w !! a) as [h|]; [| done].
  intros Hk. by exists h.
Qed.

Lemma preserves_bridge_onStatus i msgType value :
  preserves R (Bridge.onStatus i msgType value).
Proof.
  intros w r w' Hrun. apply onStatus_enter in Hrun.
  destruct (mediaObjects w !! i) as [a|] eqn:Hr.
  - apply load_inv in Hrun as (m & Hh & Hrun). simpl in Hh.
    destruct (switch_msgType msgType) eqn:Hcase.
    2:{ unfold store in Hrun. simpl in Hrun. rewrite Hh in Hrun.
        injection Hrun as <- <-. by apply frame_duration. }
    all: etransitivity;
      [ apply (frame_log w (EvOnStatus i msgType value));
        apply no_duration_status; by rewrite Hcase
      | refine ((_ : preserves R _) _ _ _ Hrun); frame ].
  - etransitivity; [by apply (frame_unknown w i msgType value) |].
    refine ((_ : preserves R _) _ _ _ Hrun). frame.
Qed.

Lemma preserves_local_onStatus i msgType value :
  preserves R (Local.onStatus i msgType value).
Proof.
  intros w r w' Hrun. apply onStatus_enter in Hrun.
  destruct (mediaObjects w !! i) as [a|] eqn:Hr.
  - apply load_inv in Hrun as (m & Hh & Hrun). simpl in Hh.
    destruct (switch_msgType msgType) eqn:Hcase.
    2:{ unfold store in Hrun. simpl in Hrun. rewrite Hh in Hrun.
        injection Hrun as <- <-. by apply frame_duration. }
    all: etransitivity;
      [ apply (frame_log w (EvOnStatus i msgType value));
        apply no_duration_status; by rewrite Hcase
      | refine ((_ : preserves R _) _ _ _ Hrun); frame ].
  - etransitivity; [by apply (frame_unknown w i msgType value) |].
    refine ((_ : preserves R _) _ _ _ Hrun). frame.
Qed.

Ltac frame_ops :=
  repeat first
    [ apply preserves_bridge_onStatus
    | apply preserves_local_onStatus
    | frame_step ].

Lemma preserves_notify this msgType value :
  preserves R (Local.notify this msgType value).
Proof. unfold Local.notify. frame_ops. Qed.

Lemma preserves_createNode media : preserves R (Local.createNode media).
Proof. unfold Local.createNode. frame_ops. Qed.

Lemma preserves_build_node this : preserves R (Local.build_node this).
Proof.
  unfold Local.build_node.
  apply preserves_try_catch; [apply preserves_bind |];
    intros; first [apply preserves_createNode | apply preserves_notify | frame].
Qed.

Lemma preserves_this_node this e : preserves R (Local.this_node this e).
Proof. unfold Local.this_node. frame_ops. Qed.

Ltac frame_local :=
  repeat first
    [ apply preserves_notify
    | apply preserves_build_node
    | apply preserves_this_node
    | apply preserves_local_onStatus
    | frame_step ].

Lemma preserves_local_pause this : preserves R (Local.pause this).
Proof. unfold Local.pause. frame_local. Qed.

Lemma preserves_local_seekTo this ms : preserves R (Local.seekTo this ms).
Proof. unfold Local.seekTo. frame_local. Qed.

Lemma preserves_local_stop this : preserves R (Local.stop this).
Proof.
  unfold Local.stop.
  apply preserves_try_catch; [| intros; apply preserves_notify].
  apply preserves_bind; [apply preserves_local_pause | intros _].
  apply preserves_bind; [apply preserves_local_seekTo | intros _].
  apply preserves_notify.
Qed.

(** Every call on the bridge client but the constructor. *)
Lemma preserves_bridge_perform o :
  (∀ args uuid, o ≠ Bridge.New args uuid) → preserves R (Bridge.perform o).
Proof.
  intros Hnew. destruct o; simpl; [by edestruct Hnew | ..];
    unfold Bridge.get, Bridge.play, Bridge.stop, Bridge.seekTo, Bridge.pause,
      Bridge.getDuration, Bridge.getCurrentPosition, Bridge.startRecord,
      Bridge.stopRecord, Bridge.release, Bridge.setVolume, Bridge.resume,
      Bridge.onMessageFromNative, Bridge.exec;
    frame_ops.
Qed.

(** Every call on the local client but the constructor. *)
Lemma preserves_local_perform o :
  (∀ args uuid, o ≠ Local.New args uuid) → preserves R (Local.perform o).
Proof.
  intros Hnew. destruct o; simpl; [by edestruct Hnew | ..];
    first [ apply preserves_local_pause | apply preserves_local_seekTo
          | apply preserves_local_stop | apply preserves_local_onStatus
          | idtac ];
    unfold Local.play, Local.getDuration, Local.getCurrentPosition,
      Local.startRecord, Local.stopRecord, Local.release, Local.setVolume,
      Local.fire, Local.get_code;
    frame_local.
Qed.

End Framing.

(** ** Three frames *)

Section Frames.
Context {host : Host}.
Implicit Types (w : world) (i uuid u : string) (a this : addr) (h : handle).

Global Instance keeps_frame i : Frame (keeps i).
Proof.
  split; [split |..]; unfold keeps.
  - by intros w.
  - intros w1 w2 w3 H12 H23 H1. auto.
  - by intros w e _.
  - by intros w j msgType value _.
  - by intros w a h f _ _.
  - by intros w j msgType value a h _ _ _.
Qed.

Lemma lookup_update (l : list handle) a b h h' :
  l !! a = Some h →
  <[a := h']> l !! b = if decide (a = b) then Some h' else l !! b.
Proof.
  intros Hh. destruct (decide (a = b)) as [<-|Hne].
  - apply list_lookup_insert_eq. by eapply lookup_lt_Some.
  - by apply list_lookup_insert_ne.
Qed.

Lemma last_duration_app uuid es1 es2 d :
  last_duration uuid (es1 ++ es2) d = last_duration uuid es2 (last_duration uuid es1 d).
Proof. revert d. induction es1 as [|e es1 IH]; intros d; simpl; [done | apply IH]. Qed.

(** Updating a handle without changing its id keeps it where it is. *)
Lemma anchored_update uuid this w a h h' tr :
  anchored uuid this w →
  heap w !! a = Some h →
  id h' = id h →
  anchored uuid this (World (<[a := h']> (heap w)) (mediaObjects w) tr).
Proof.
  intros (h0 & Hthis & Hid & Hreg) Hh Hsame. unfold anchored. simpl.
  rewrite (lookup_update _ a this h h' Hh).
  destruct (decide (a = this)) as [<-|]; [| eauto].
  exists h'. repeat split; [| done]. congruence.
Qed.

Lemma well_formed_update w a h h' tr :
  well_formed w →
  heap w !! a = Some h →
  id h' = id h →
  well_formed (World (<[a := h']> (heap w)) (mediaObjects w) tr).
Proof.
  intros Hwf Hh Hsame j b Hj. simpl in *.
  destruct (Hwf j b Hj) as (hb & Hb & Hidb).
  rewrite (lookup_update _ a b h h' Hh). destruct (decide (a = b)) as [<-|]; [| eauto].
  exists h'. split; [done |]. congruence.
Qed.

Global Instance sound_frame : Frame sound.
Proof.
  split; [split |..]; unfold sound.
  - by intros w.
  - intros w1 w2 w3 H12 H23 H1. auto.
  - by intros w e _.
  - by intros w i msgType value _.
  - intros w a h f Hh Hf Hwf. destruct (Hf h) as [Hfid _].
    by eapply well_formed_update.
  - intros w i msgType value a h Hr Hh Hcase Hwf. by eapply well_formed_update.
Qed.

Lemma tracked_update uuid this w a h h' tr :
  tracked uuid this w →
  heap w !! a = Some h →
  id h' = id h →
  tracked uuid this (World (<[a := h']> (heap w)) (mediaObjects w) tr).
Proof.
  intros [Hwf Hanchor] Hh Hsame.
  split; [by eapply well_formed_update | by eapply anchored_update].
Qed.

Global Instance stays_frame uuid this : Frame (stays uuid this).
Proof.
  split; [split |..]; unfold stays.
  - by intros w.
  - intros w1 w2 w3 H12 H23 H1. auto.
  - by intros w e _.
  - by intros w i msgType value _.
  - intros w a h f Hh Hf Hanchor. destruct (Hf h) as [Hfid _].
    by eapply anchored_update.
  - intros w i msgType value a h Hr Hh Hcase Hanchor. by eapply anchored_update.
Qed.

Global Instance follows_frame uuid this : Frame (follows uuid this).
Proof.
  split; [split |..].
  - intros w Ht. split; [done |]. exists []. rewrite app_nil_r. split; [done |].
    by destruct (heap w !! this).
  - intros w1 w2 w3 H12 H23 Ht1.
    destruct (H12 Ht1) as (Ht2 & es1 & Htr1 & Hd1).
    destruct (H23 Ht2) as (Ht3 & es2 & Htr2 & Hd2).
    split; [done |]. exists (es1 ++ es2)%list. split.
    + by rewrite Htr2, Htr1, app_assoc.
    + rewrite Hd2, Hd1. destruct (heap w1 !! this); simpl; [| done].
      by rewrite last_duration_app.
  - intros w e He Ht. split; [done |]. exists [e]. split; [done |].
    simpl. destruct (heap w !! this); simpl; [| done]. by rewrite He.
  - intros w i msgType value Hnone Ht. split; [done |].
    exists [EvOnStatus i msgType value]. split; [done |].
    destruct Ht as [_ (h0 & Hthis & Hid & Hreg)]. simpl. rewrite Hthis. simpl.
    destruct (String.eqb_spec i uuid) as [->|]; [congruence | done].
  - intros w a h f Hh Hf Ht. destruct (Hf h) as [Hfid Hfd]. split.
    + by eapply tracked_update.
    + exists []. rewrite app_nil_r. split; [done |]. simpl.
      rewrite (lookup_update _ a this h (f h) Hh).
      destruct (decide (a = this)) as [<-|]; [| by destruct (heap w !! this)].
      rewrite Hh. simpl. by rewrite Hfd.
  - intros w i msgType value a h Hr Hh Hcase Ht. split.
    + by eapply tracked_update.
    + exists [EvOnStatus i msgType value]. split; [done |]. simpl.
      rewrite (lookup_update _ a this h _ Hh), Hcase.
      destruct Ht as [Hwf (h0 & Hthis & Hid & Hreg)].
      destruct (decide (a = this)) as [<-|Hne].
      * rewrite Hh. simpl.
        destruct (Hwf i a Hr) as (ha & Ha & Hia).
        assert (i = uuid) as -> by congruence. by rewrite String.eqb_refl.
      * rewrite Hthis. simpl.
        destruct (String.eqb_spec i uuid) as [->|]; [congruence | done].
Qed.

(** *** Constructor calls *)

Lemma keeps_constructed i w u h es : keeps i w (constructed u h es w).
Proof. intros Hi. simpl. rewrite lookup_insert_is_Some'. by right. Qed.

Lemma anchored_constructed uuid this w u h es :
  u ≠ uuid → anchored uuid this w → anchored uuid this (constructed u h es w).
Proof.
  intros Hne (h0 & Hthis & Hid0 & Hreg). exists h0. simpl.
  repeat split; [by apply lookup_app_l_Some | done |].
  by rewrite lookup_insert_ne.
Qed.

Lemma well_formed_constructed w u h es :
  id h = u → well_formed w → well_formed (constructed u h es w).
Proof.
  intros Hid Hwf j b. simpl. destruct (decide (u = j)) as [<-|Hj].
  - rewrite lookup_insert_eq. intros [= <-]. exists h. by rewrite lookup_new.
  - rewrite lookup_insert_ne by done. intros Hb.
    destruct (Hwf j b Hb) as (hb & Hhb & Hidb). exists hb.
    split; [by apply lookup_app_l_Some | done].
Qed.

Lemma stays_constructed uuid this w u h es :
  u ≠ uuid → stays uuid this w (constructed u h es w).
Proof. intros Hne Hanchor. by apply anchored_constructed. Qed.

(** A handle constructed under another id leaves the tracked one alone. *)
Lemma follows_constructed uuid this w u h es :
  u ≠ uuid → id h = u → silent es →
  follows uuid this w (constructed u h es w).
Proof.
  intros Hne Hid Hes [Hwf Hanchor]. split; [split |].
  - by apply well_formed_constructed.
  - by apply anchored_constructed.
  - exists es. split; [done |]. destruct Hanchor as (h0 & Hthis & _). simpl.
    rewrite (lookup_app_l_Some _ _ _ _ Hthis), Hthis. simpl. by rewrite Hes.
Qed.

(** A freshly constructed handle is tracked under its id. *)
Lemma tracked_constructed w u h es :
  well_formed w → id h = u → tracked u (length (heap w)) (constructed u h es w).
Proof.
  intros Hwf Hid. split; [by apply well_formed_constructed |].
  exists h. simpl. by rewrite lookup_new, lookup_insert_eq.
Qed.

Lemma after_bridge_new_accepted args uuid w :
  required_source_signature args = true →
  after (forget (Bridge.NocSonicMedia args uuid)) w
  = constructed uuid (init_fields args (blank uuid))
      [EvExec KNull (nth 2 args VUndefined) "NocSonicMedia" "create"
         [VStr uuid; nth 0 args VUndefined]] w.
Proof.
  intros Hsig. unfold after, forget, bind.
  by rewrite (bridge_new_accepted args uuid w Hsig).
Qed.

Lemma after_bridge_new_rejected args uuid w :
  required_source_signature args = false →
  after (forget (Bridge.NocSonicMedia args uuid)) w = w.
Proof.
  intros Hsig. unfold after, forget, bind.
  destruct (bridge_new_rejected args uuid w Hsig) as [message ->]. done.
Qed.

Lemma after_local_new_accepted args uuid w :
  optional_source_signature args = true →
  ∃ n es,
    after (forget (Local.NocSonicMedia args uuid)) w
    = constructed uuid (set_node n (init_fields args (blank uuid))) es w
    ∧ silent es.
Proof.
  intros Hsig. unfold after, forget, bind.
  destruct (local_new_accepted args uuid w Hsig) as (n & es & -> & Hes).
  by exists n, es.
Qed.

Lemma after_local_new_rejected args uuid w :
  optional_source_signature args = false →
  after (forget (Local.NocSonicMedia args uuid)) w = w.
Proof.
  intros Hsig. unfold after, forget, bind.
  destruct (local_new_rejected args uuid w Hsig) as [message ->]. done.
Qed.

End Frames.

(** ** Sessions *)

Section Sessions.
Context {host : Host} (R : relation world) `{!Frame R}.
(** The ids a constructor call may be given, and what such a call does. *)
Variable allowed : string → Prop.
Hypothesis R_constructed :
  ∀ w u h es, allowed u → id h = u → silent es → R w (constructed u h es w).

Lemma bridge_step o w :
  (∀ args u, o = Bridge.New args u → allowed u) →
  R w (after (Bridge.perform o) w).
Proof.
  intros Hnew. destruct o as [args u| | | | | | | | | | | | | |];
    try (apply preserves_after, preserves_bridge_perform; try apply _; done).
  simpl. destruct (required_source_signature args) eqn:Hsig.
  - rewrite after_bridge_new_accepted by done.
    apply R_constructed; [by eapply Hnew | done | by intros ? ?].
  - rewrite after_bridge_new_rejected by done. reflexivity.
Qed.

Lemma local_step o w :
  (∀ args u, o = Local.New args u → allowed u) →
  R w (after (Local.perform o) w).
Proof.
  intros Hnew. destruct o as [args u| | | | | | | | | | | |];
    try (apply preserves_after, preserves_local_perform; try apply _; done).
  simpl. destruct (optional_source_signature args) eqn:Hsig.
  - destruct (after_local_new_accepted args u w Hsig) as (n & es & -> & Hes).
    apply R_constructed; [by eapply Hnew | done | done].
  - rewrite after_local_new_rejected by done. reflexivity.
Qed.

Lemma bridge_run ops w :
  Forall (λ o, ∀ args u, o = Bridge.New args u → allowed u) ops →
  R w (Bridge.run ops w).
Proof.
  intros Hops. revert w. induction Hops as [|o ops Ho _ IH]; intros w; simpl.
  - reflexivity.
  - etransitivity; [by apply bridge_step | apply IH].
Qed.

Lemma local_run ops w :
  Forall (λ o, ∀ args u, o = Local.New args u → allowed u) ops →
  R w (Local.run ops w).
Proof.
  intros Hops. revert w. induction Hops as [|o ops Ho _ IH]; intros w; simpl.
  - reflexivity.
  - etransitivity; [by apply local_step | apply IH].
Qed.

End Sessions.

Section Claims.
Context {host : Host}.
Implicit Types (w : world) (i uuid u : string) (a this : addr) (h : handle).

Lemma bridge_constructs_other uuid ops :
  Forall (λ o, Bridge.constructs uuid o = false) ops →
  Forall (λ o, ∀ args u, o = Bridge.New args u → u ≠ uuid) ops.
Proof.
  intros Hops. eapply Forall_impl; [exact Hops |].
  intros o Ho args u ->. simpl in Ho. by apply String.eqb_neq.
Qed.

Lemma local_constructs_other uuid ops :
  Forall (λ o, Local.constructs uuid o = false) ops →
  Forall (λ o, ∀ args u, o = Local.New args u → u ≠ uuid) ops.
Proof.
  intros Hops. eapply Forall_impl; [exact Hops |].
  intros o Ho args u ->. simpl in Ho. by apply String.eqb_neq.
Qed.

(** Every world a session reaches from the empty one is well formed. *)
Lemma bridge_run_well_formed ops w :
  well_formed w → well_formed (Bridge.run ops w).
Proof.
  apply (bridge_run sound (λ _, True)).
  - intros w0 u h es _ Hid _ Hwf. by apply well_formed_constructed.
  - by apply Forall_true.
Qed.

Lemma local_run_well_formed ops w :
  well_formed w → well_formed (Local.run ops w).
Proof.
  apply (local_run sound (λ _, True)).
  - intros w0 u h es _ Hid _ Hwf. by apply well_formed_constructed.
  - by apply Forall_true.
Qed.

Lemma empty_world_well_formed : well_formed empty_world.
Proof. intros j b Hb. simpl in Hb. by rewrite lookup_empty in Hb. Qed.

Lemma events_since_log w w' es :
  trace w' = (trace w ++ es)%list → events_since w w' = es.
Proof. intros Htr. unfold events_since. rewrite Htr. by rewrite drop_app_length. Qed.

Lemma getDuration_tracked uuid this w1 w2 d (getDuration : addr → M jsval) :
  (∀ w h, heap w !! this = Some h → getDuration this w = Some (Normal (_duration h), w)) →
  tracked uuid this w1 →
  _duration <$> heap w1 !! this = Some d →
  follows uuid this w1 w2 →
  getDuration this w2
  = Some (Normal (last_duration uuid (events_since w1 w2) d), w2).
Proof.
  intros Hget Ht Hd Hfollows. destruct (Hfollows Ht) as (Ht2 & es & Htr & Hd2).
  rewrite (events_since_log _ _ _ Htr).
  destruct Ht2 as [_ (h2 & Hh2 & _)]. rewrite (Hget _ _ Hh2).
  rewrite Hd, Hh2 in Hd2. simpl in Hd2. by injection Hd2 as ->.
Qed.

Lemma bridge_getDuration_eq this w h :
  heap w !! this = Some h → Bridge.getDuration this w = Some (Normal (_duration h), w).
Proof. intros Hh. js_unfold. js_eval. reflexivity. Qed.

Lemma local_getDuration_eq this w h :
  heap w !! this = Some h → Local.getDuration this w = Some (Normal (_duration h), w).
Proof. intros Hh. js_unfold. js_eval. reflexivity. Qed.

(** C2. A handle is constructed and any calls follow, none of which
    constructs a handle under the same id: [getDuration] then returns the
    value of the last Duration message [onStatus] got for the handle's id,
    and -1 when it got none; it leaves the world as it is.  Both clients. *)
Theorem getDuration_is_last_duration_message :
  (∀ w args uuid ops,
     well_formed w →
     required_source_signature args = true →
     Forall (λ o, Bridge.constructs uuid o = false) ops →
     let this := length (heap w) in
     let w1 := after (forget (Bridge.NocSonicMedia args uuid)) w in
     let w2 := Bridge.run ops w1 in
     Bridge.getDuration this w2
     = Some (Normal (last_duration uuid (events_since w1 w2) (VNum (-1))), w2))
  ∧ (∀ w args uuid ops,
       well_formed w →
       optional_source_signature args = true →
       Forall (λ o, Local.constructs uuid o = false) ops →
       let this := length (heap w) in
       let w1 := after (forget (Local.NocSonicMedia args uuid)) w in
       let w2 := Local.run ops w1 in
       Local.getDuration this w2
       = Some (Normal (last_duration uuid (events_since w1 w2) (VNum (-1))), w2)).
Proof.
  split; intros w args uuid ops Hwf Hsig Hops; simpl.
  - apply (getDuration_tracked uuid); [apply bridge_getDuration_eq | | |].
    + rewrite after_bridge_new_accepted by done. by apply tracked_constructed.
    + rewrite after_bridge_new_accepted by done. simpl. by rewrite lookup_new.
    + apply (bridge_run _ (λ u, u ≠ uuid)).
      * intros. by apply follows_constructed.
      * by apply bridge_constructs_other.
  - destruct (after_local_new_accepted args uuid w Hsig) as (n & es & Hw1 & Hes).
    apply (getDuration_tracked uuid); [apply local_getDuration_eq | | |].
    + rewrite Hw1. by apply tracked_constructed.
    + rewrite Hw1. simpl. by rewrite lookup_new.
    + apply (local_run _ (λ u, u ≠ uuid)).
      * intros. by apply follows_constructed.
      * by apply local_constructs_other.
Qed.

Lemma anchored_registered this h w :
  registered w this h → anchored (id h) this w.
Proof. intros [Hh Hr]. by exists h. Qed.

Lemma registered_anchored uuid this w :
  anchored uuid this w → ∃ h, registered w this h ∧ id h = uuid.
Proof.
  intros (h & Hh & Hid & Hr). exists h. split; [| done].
  split; [done | by rewrite Hid].
Qed.

(** C6. The registry only grows.  An accepted constructor call has made
    the new handle, registered it under its id and set its fields before it
    turns to the outside.  The bridge constructor hands the "create" request
    over in the world [initialised uuid args w], where the handle is
    registered and nothing is logged yet, whatever the request primitive
    does with it (an answer that comes at once finds the handle); with
    [exec] the request is all it adds.  The local constructor's first event
    is the Starting notification, which [onStatus] delivers to the new
    handle; the element is built after it.  No call removes an entry of the
    registry; and a registered handle stays registered under its id through
    any calls, none of which constructs a handle under the same id. *)
Theorem registry_only_grows :
  (∀ request w args uuid,
     required_source_signature args = true →
     let this := length (heap w) in
     let me := init_fields args (blank uuid) in
     let w1 := initialised uuid args w in
     registered w1 this me
     ∧ trace w1 = trace w
     ∧ Bridge.NocSonicMedia_over request args uuid w
       = (request KNull (errorCallback me) "NocSonicMedia" "create"
            [VStr uuid; src me] ;;
          ret this) w1)
  ∧ (∀ w args uuid,
       required_source_signature args = true →
       Bridge.NocSonicMedia args uuid w
       = Some (Normal (length (heap w)),
               log [EvExec KNull (nth 2 args VUndefined) "NocSonicMedia" "create"
                      [VStr uuid; nth 0 args VUndefined]] (initialised uuid args w)))
  ∧ (∀ w args uuid,
       optional_source_signature args = true →
       let this := length (heap w) in
       let me := init_fields args (blank uuid) in
       ∃ n ops reported,
         Local.NocSonicMedia args uuid w
         = Some (Normal this,
                 constructed uuid (set_node n me)
                   (state_notification me MEDIA_STARTING ++ map EvNode ops ++ reported) w)
         ∧ (reported = [] ∨ reported = error_notification me Local.aborted))
  ∧ (∀ ops w i,
       is_Some (mediaObjects w !! i) →
       is_Some (mediaObjects (Bridge.run ops w) !! i))
  ∧ (∀ ops w i,
       is_Some (mediaObjects w !! i) →
       is_Some (mediaObjects (Local.run ops w) !! i))
  ∧ (∀ ops w this h,
       registered w this h →
       Forall (λ o, Bridge.constructs (id h) o = false) ops →
       ∃ h', registered (Bridge.run ops w) this h' ∧ id h' = id h)
  ∧ (∀ ops w this h,
       registered w this h →
       Forall (λ o, Local.constructs (id h) o = false) ops →
       ∃ h', registered (Local.run ops w) this h' ∧ id h' = id h).
Proof.
  split; [| split; [| split; [| repeat split]]].
  - intros request w args uuid Hsig; simpl.
    pose proof (checkArgs_sFFF args) as Hcheck. rewrite Hsig in Hcheck.
    split; [| split; [done |]].
    + split; simpl; [apply lookup_new | apply lookup_insert_eq].
    + unfold Bridge.NocSonicMedia_over. rewrite Hcheck.
      unfold bind, alloc, registry_set, store, load, initialised; simpl.
      rewrite lookup_new, insert_new; simpl. by rewrite lookup_new.
  - intros w args uuid Hsig. by rewrite bridge_new_accepted.
  - intros w args uuid Hsig. by apply local_new_starts.
  - intros ops w i. apply (bridge_run (keeps i) (λ _, True)).
    + intros. apply keeps_constructed.
    + by apply Forall_true.
  - intros ops w i. apply (local_run (keeps i) (λ _, True)).
    + intros. apply keeps_constructed.
    + by apply Forall_true.
  - intros ops w this h Hreg Hops. apply registered_anchored.
    apply (bridge_run (stays (id h) this) (λ u, u ≠ id h)).
    + intros. by apply stays_constructed.
    + by apply bridge_constructs_other.
    + by apply anchored_registered.
  - intros ops w this h Hreg Hops. apply registered_anchored.
    apply (local_run (stays (id h) this) (λ u, u ≠ id h)).
    + intros. by apply stays_constructed.
    + by apply local_constructs_other.
    + by apply anchored_registered.
Qed.

(** C8, as the code has it.  The bridge constructor checks its arguments
    against (source: string, three optional functions) and the local one
    against (source: optional string, three optional functions): a call that
    fits returns the new handle, registered under its id; a call that does
    not raises a TypeError and leaves the world as it was. *)
Theorem constructor_checks_signature w args uuid :
  let this := length (heap w) in
  (if required_source_signature args
   then ∃ w', Bridge.NocSonicMedia args uuid w = Some (Normal this, w')
              ∧ mediaObjects w' !! uuid = Some this
   else ∃ message,
          Bridge.NocSonicMedia args uuid w = Some (Throw (TypeError message), w))
  ∧ (if optional_source_signature args
     then ∃ w', Local.NocSonicMedia args uuid w = Some (Normal this, w')
                ∧ mediaObjects w' !! uuid = Some this
     else ∃ message,
            Local.NocSonicMedia args uuid w = Some (Throw (TypeError message), w)).
Proof.
  simpl. split.
  - destruct (required_source_signature args) eqn:Hsig.
    + rewrite bridge_new_accepted by done. eexists. split; [done |].
      simpl. by rewrite lookup_insert_eq.
    + by apply bridge_new_rejected.
  - destruct (optional_source_signature args) eqn:Hsig.
    + destruct (local_new_accepted args uuid w Hsig) as (n & es & -> & _).
      eexists. split; [done |]. simpl. by rewrite lookup_insert_eq.
    + by apply local_new_rejected.
Qed.

(** X1. After [release], when [new Audio()] and the element's operations
    succeed, [play] builds a new element, gives it the source, starts it and
    keeps it in the handle; nobody is notified. *)
Theorem play_rebuilds_element w this me n n1 n2 :
  registered w this me →
  node me = None →
  new_Audio = Normal n →
  truthy (src me) = true →
  set_src (src me) n = Normal n1 →
  node_play n1 = Normal n2 →
  Local.play this w
  = Some (Normal tt,
          World (<[this := set_node (Some n2) me]> (heap w)) (mediaObjects w)
            (trace w ++ [EvNode NNew; EvNode (NSetSrc (src me)); EvNode NPlay])).
Proof.
  intros [Hh Hr] Hnode Hnew Hsrc Hset Hplay. js_unfold. js_eval.
  rewrite Hsrc. js_eval. rewrite Hset. js_eval.
  rewrite (lookup_update _ this this me _ Hh), decide_True by done. js_eval.
  rewrite Hplay. js_eval.
  rewrite (lookup_update _ this this me _ Hh), decide_True by done. js_eval.
  rewrite list_insert_insert_eq. rewrite <- !app_assoc. reflexivity.
Qed.

(** C4, where the code departs from it.  When the element is absent and
    [new Audio()] raises, [play] reports Error with the "aborted" code and
    then raises all the same: [this.node.play()] runs on the element that
    could not be built. *)
Theorem play_raises_when_rebuild_fails w this me e :
  registered w this me →
  node me = None →
  optional_function (errorCallback me) = true →
  new_Audio = Throw e →
  Local.play this w
  = Some (Throw (read_of_undefined "play"),
          log (EvNode NNew :: error_notification me Local.aborted) w).
Proof.
  intros [Hh Hr] Hnode Herror Hnew.
  js_callback (errorCallback me); js_unfold; js_eval; js_done.
Qed.

(** C10, as the code has it.  With the element absent, [setVolume] raises
    to the caller and notifies nobody, while [pause], [seekTo], [stop] and
    [release] return, the first three after Error notifications, and
    [getCurrentPosition] hands the failure to [fail].  [setVolume] is not
    the only call that raises: the [try] of [play] ends before
    [this.node.play()], so what the element's [play()] raises reaches the
    caller and nobody is notified, whether the element has just been
    rebuilt or was there all along. *)
Theorem setVolume_and_play_raise w this me volume milliseconds success fail :
  registered w this me →
  node me = None →
  optional_function (statusCallback me) = true →
  optional_function (successCallback me) = true →
  optional_function (errorCallback me) = true →
  let no_pause := read_of_undefined "pause" in
  let no_seek := write_of_undefined "currentTime" in
  Local.setVolume this volume w = Some (Throw (write_of_undefined "volume"), w)
  ∧ Local.pause this w = Some (Normal tt, log (error_notification me no_pause) w)
  ∧ Local.seekTo this milliseconds w
    = Some (Normal tt, log (error_notification me no_seek) w)
  ∧ Local.stop this w
    = Some (Normal tt,
            log (error_notification me no_pause ++ error_notification me no_seek
                   ++ state_notification me MEDIA_STOPPED
                   ++ calls (successCallback me) []) w)
  ∧ Local.release this w = Some (Normal tt, w)
  ∧ Local.getCurrentPosition this success (VFun fail) w
    = Some (Normal tt, log [EvCall fail [read_of_undefined "currentTime"]] w)
  ∧ (∀ n n1 e,
       new_Audio = Normal n →
       truthy (src me) = true →
       set_src (src me) n = Normal n1 →
       node_play n1 = Throw e →
       Local.play this w
       = Some (Throw e,
               World (<[this := set_node (Some n1) me]> (heap w)) (mediaObjects w)
                 (trace w ++ [EvNode NNew; EvNode (NSetSrc (src me)); EvNode NPlay])))
  ∧ (∀ w0 a h n e,
       registered w0 a h →
       node h = Some n →
       node_play n = Throw e →
       Local.play a w0 = Some (Throw e, log [EvNode NPlay] w0)).
Proof.
  intros [Hh Hr] Hnode Hstatus Hsuccess Herror; simpl.
  split; [| split; [| split; [| split; [| split; [| split; [| split]]]]]].
  - js_unfold; js_eval; reflexivity.
  - js_callback (errorCallback me); js_unfold; js_eval; js_done.
  - js_callback (errorCallback me); js_unfold; js_eval; js_done.
  - js_callback (errorCallback me); js_callback (statusCallback me);
      js_callback (successCallback me); js_unfold; js_eval; js_done.
  - js_unfold; js_eval. rewrite set_node_same by done. by rewrite store_same.
  - js_unfold; js_eval; js_done.
  - intros n n1 e Hnew Hsrc Hset Hplay. js_unfold. js_eval.
    rewrite Hsrc. js_eval. rewrite Hset. js_eval.
    rewrite (lookup_update _ this this me _ Hh), decide_True by done. js_eval.
    rewrite Hplay. rewrite <- !app_assoc. reflexivity.
  - intros w0 a h n e [Hh0 Hr0] Hn Hplay. js_unfold. js_eval.
    rewrite Hplay. reflexivity.
Qed.

(** X2. A message of the native channel whose action is "status" is
    delivered to [onStatus]; any other action raises. *)
Theorem onMessageFromNative_checks_action w msg :
  (Bridge.action msg = "status" →
   Bridge.onMessageFromNative msg w
   = Bridge.onStatus (Bridge.status_id msg) (Bridge.status_msgType msg)
       (Bridge.status_value msg) w)
  ∧ (Bridge.action msg ≠ "status" →
     Bridge.onMessageFromNative msg w
     = Some (Throw (VError "Error" ("Unknown media action" ++ Bridge.action msg)), w)).
Proof.
  unfold Bridge.onMessageFromNative.
  split; intros Haction.
  - by rewrite Haction.
  - apply String.eqb_neq in Haction. by rewrite Haction.
Qed.

(** X3. Delivering a Position message to a registered handle stores
    [Number(value)] as its cached position and does nothing else: no
    callback is called and the duration is as before.  Both clients. *)
Theorem onStatus_position_is_cached w i a m value :
  mediaObjects w !! i = Some a →
  heap w !! a = Some m →
  let cached :=
    World (<[a := set_position (VNum (ToNumber value)) m]> (heap w)) (mediaObjects w)
      (trace w ++ [EvOnStatus i (VNum MEDIA_POSITION) value]) in
  Bridge.onStatus i (VNum MEDIA_POSITION) value w = Some (Normal tt, cached)
  ∧ Local.onStatus i (VNum MEDIA_POSITION) value w = Some (Normal tt, cached).
Proof.
  intros Hr Hh; simpl. split; js_unfold; js_eval; reflexivity.
Qed.

End Claims.

(** ** The properties at work *)

Lemma browser_reads_four : @StringToNumber browser "4" = 4%float.
Proof. reflexivity. Qed.

Lemma studio_track : registered studio 0 track.
Proof. split; reflexivity. Qed.

Lemma released_track : registered released_studio 0 (set_node None track).
Proof. split; reflexivity. Qed.

Lemma deaf_studio_track : registered deaf_studio 0 deaf_track.
Proof. split; reflexivity. Qed.

Lemma onStatus_stopped_then_success_witness :
  @Local.onStatus browser "u1" (VNum MEDIA_STATE) (VNum MEDIA_STOPPED) studio
  = Some (Normal tt,
          log [EvOnStatus "u1" (VNum MEDIA_STATE) (VNum MEDIA_STOPPED);
               EvCall 3 [VNum MEDIA_STOPPED]; EvCall 1 []] studio).
Proof.
  refine (proj1 (proj2
    (@onStatus_stopped_then_success browser studio "u1" track _ _ _))).
  - exists 0. split; reflexivity.
  - reflexivity.
  - reflexivity.
Defined.


Lemma onStatus_error_calls_errorCallback_witness :
  @Local.onStatus browser "u1" (VNum MEDIA_ERROR) (code_object (VNum 3)) studio
  = Some (Normal tt,
          log [EvOnStatus "u1" (VNum MEDIA_ERROR) (code_object (VNum 3));
               EvCall 2 [code_object (VNum 3)]] studio).
Proof.
  refine (proj1 (proj2
    (@onStatus_error_calls_errorCallback browser studio "u1" track _ _ _))).
  - exists 0. split; reflexivity.
  - reflexivity.
Defined.

Lemma record_is_not_supported_witness :
  @Local.startRecord browser 0 studio
  = Some (Normal tt,
          log [EvOnStatus "u1" (VNum MEDIA_ERROR) (VStr "Not supported");
               EvCall 2 [VStr "Not supported"]] studio).
Proof.
  refine (proj1 (@record_is_not_supported browser studio 0 track _ _)).
  - exact studio_track.
  - reflexivity.
Defined.

Lemma onStatus_variants_differ_on_text_witness :
  @Bridge.onStatus browser "u1" (VNum MEDIA_STATE) (VStr "4") studio
  = Some (Normal tt,
          log [EvOnStatus "u1" (VNum MEDIA_STATE) (VStr "4");
               EvCall 3 [VStr "4"]; EvCall 1 []] studio)
  ∧ @Local.onStatus browser "u1" (VNum MEDIA_STATE) (VStr "4") studio
    = Some (Normal tt,
            log [EvOnStatus "u1" (VNum MEDIA_STATE) (VStr "4");
                 EvCall 3 [VStr "4"]] studio).
Proof.
  pose proof (@onStatus_variants_differ_on_text browser studio "u1" track 3 1)
    as H.
  simpl in H. destruct H as (Hbridge & Hlocal & _).
  - exact browser_reads_four.
  - exists 0. split; reflexivity.
  - reflexivity.
  - reflexivity.
  - split; [exact Hbridge | exact Hlocal].
Defined.

Lemma refused_studio_track : registered refused_studio 0 (set_node None refused_track).
Proof. split; reflexivity. Qed.

Lemma setVolume_and_play_raise_witness :
  @Local.setVolume refusing 0 (VNum 1) refused_studio
  = Some (Throw (write_of_undefined "volume"), refused_studio)
  ∧ @Local.play refusing 0 refused_studio
    = Some (Throw (VError "NotAllowedError" "play() failed"),
            World [refused_track] (mediaObjects refused_studio)
              (trace refused_studio
                 ++ [EvNode NNew; EvNode (NSetSrc (VStr "track.mp3")); EvNode NPlay])).
Proof.
  pose proof (@setVolume_and_play_raise refusing refused_studio 0
                (set_node None refused_track) (VNum 1) (VNum 0) VUndefined 0)
    as H.
  simpl in H. destruct H as (Hvolume & _ & _ & _ & _ & _ & Hplay & _).
  - exact refused_studio_track.
  - reflexivity.
  - reflexivity.
  - reflexivity.
  - reflexivity.
  - split; [exact Hvolume |].
    exact (Hplay (Audio (VStr "") (VNum 0) (VNum 1) true)
             (Audio (VStr "track.mp3") (VNum 0) (VNum 1) true)
             (VError "NotAllowedError" "play() failed")
             eq_refl eq_refl eq_refl eq_refl).
Defined.

(** C10, the input it fails on: where the element's [play()] raises, [play]
    on a released handle raises to the caller, and the trace gains the
    three operations on the rebuilt element and no notification; so
    [setVolume] is not the only call of the local client that raises
    where others report. *)
Lemma play_raises_without_notification :
  @Local.play refusing 0 refused_studio
  = Some (Throw (VError "NotAllowedError" "play() failed"),
          log [EvNode NNew; EvNode (NSetSrc (VStr "track.mp3")); EvNode NPlay]
            (World [refused_track] (mediaObjects refused_studio) (trace refused_studio)))
  ∧ @Local.pause refusing 0 refused_studio
    = Some (Normal tt,
            log [EvOnStatus "u1" (VNum MEDIA_ERROR) (read_of_undefined "pause");
                 EvCall 2 [read_of_undefined "pause"]] refused_studio).
Proof. split; reflexivity. Qed.

Lemma play_raises_when_rebuild_fails_witness :
  @Local.play no_audio 0 deaf_studio
  = Some (Throw (read_of_undefined "play"),
          log [EvNode NNew;
               EvOnStatus "u1" (VNum MEDIA_ERROR) (code_object (VNum 1));
               EvCall 2 [code_object (VNum 1)]] deaf_studio).
Proof.
  refine (@play_raises_when_rebuild_fails no_audio deaf_studio 0 deaf_track
            (VError "ReferenceError" "Audio is not defined") _ _ _ _).
  - exact deaf_studio_track.
  - reflexivity.
  - reflexivity.
  - reflexivity.
Defined.

(** C8, the input it fails on: the local constructor accepts a call without
    a source and registers the handle. *)
Lemma local_constructor_accepts_absent_source :
  required_source_signature [] = false
  ∧ ∃ w', @Local.NocSonicMedia browser [] "u1" empty_world = Some (Normal 0, w')
          ∧ mediaObjects w' !! "u1" = Some 0.
Proof.
  split; [reflexivity |]. eexists. split; reflexivity.
Qed.

Lemma getDuration_is_last_duration_message_witness :
  let w1 := after (forget (@Local.NocSonicMedia browser track_args "u1")) empty_world in
  let w2 :=
    Local.run [Local.Play 0;
               Local.Fire 0 (Local.durationchange (VNum 180));
               Local.GetDuration 0;
               Local.OnStatus "u1" (VNum MEDIA_DURATION) (VNum 181);
               Local.OnStatus "u2" (VNum MEDIA_DURATION) (VNum 7);
               Local.Release 0] w1 in
  @Local.getDuration browser 0 w2 = Some (Normal (VNum 181), w2).
Proof.
  refine (proj2 (@getDuration_is_last_duration_message browser)
            empty_world track_args "u1" _ _ _ _).
  - apply empty_world_well_formed.
  - reflexivity.
  - repeat constructor.
Defined.

Lemma registry_only_grows_witness :
  @Bridge.NocSonicMedia_over browser
    (λ _ _ _ _ _, Bridge.onStatus "u1" (VNum MEDIA_DURATION) (VNum 180))
    track_args "u1" empty_world
  = Some (Normal 0,
          World [set_duration (VNum 180) bridge_track] {["u1" := 0]}
            [EvOnStatus "u1" (VNum MEDIA_DURATION) (VNum 180)])
  ∧ ∃ h', registered
            (@Local.run browser
               [Local.Play 0; Local.Stop 0; Local.Pause 0; Local.SeekTo 0 (VNum 1000);
                Local.Release 0; Local.SetVolume 0 (VNum 1);
                Local.OnStatus "u1" (VNum MEDIA_STATE) (VNum MEDIA_STOPPED)] studio)
            0 h'
          ∧ id h' = "u1".
Proof.
  split.
  - refine (eq_trans
      (proj2 (proj2
         (proj1 (@registry_only_grows browser)
            (λ _ _ _ _ _, Bridge.onStatus "u1" (VNum MEDIA_DURATION) (VNum 180))
            empty_world track_args "u1" eq_refl))) _).
    reflexivity.
  - refine (proj2 (proj2 (proj2 (proj2 (proj2 (proj2 (@registry_only_grows browser))))))
              _ studio 0 track _ _).
    + exact studio_track.
    + repeat constructor.
Defined.

Lemma play_rebuilds_element_witness :
  @Local.play browser 0 released_studio
  = Some (Normal tt,
          World [@Handle browser "u1" (VStr "track.mp3") (VFun 1) (VFun 2) (VFun 3)
                   (VNum (-1)) (VNum (-1))
                   (Some (Audio (VStr "track.mp3") (VNum 0) (VNum 1) false))]
            (mediaObjects released_studio)
            (trace released_studio
               ++ [EvNode NNew; EvNode (NSetSrc (VStr "track.mp3")); EvNode NPlay])).
Proof.
  refine (@play_rebuilds_element browser released_studio 0 (set_node None track)
            _ _ _ _ _ _ _ _ _).
  - exact released_track.
  - reflexivity.
  - reflexivity.
  - reflexivity.
  - reflexivity.
  - reflexivity.
Defined.

Lemma onStatus_position_is_cached_witness :
  @Bridge.onStatus browser "u1" (VNum MEDIA_POSITION) (VStr "12") studio
  = Some (Normal tt,
          World [set_position (VNum 12) track] (mediaObjects studio)
            (trace studio ++ [EvOnStatus "u1" (VNum MEDIA_POSITION) (VStr "12")])).
Proof.
  refine (proj1 (@onStatus_position_is_cached browser studio "u1" 0 track
                   (VStr "12") _ _)); reflexivity.
Defined.

(** * More properties *)

(** ** The element, its events and the methods that drive it *)

Ltac js_unfold_all :=
  unfold Local.fire, Local.get_code, Bridge.play, Bridge.stop, Bridge.seekTo,
    Bridge.pause, Bridge.getCurrentPosition, Bridge.startRecord,
    Bridge.stopRecord, Bridge.release, Bridge.setVolume, Bridge.resume,
    Bridge.get, updated;
  js_unfold.

Section Elements.
Context {host : Host}.
Implicit Types (w : world) (i uuid u : string) (a this media : addr) (h me : handle).

Lemma lookup_insert_same (l : list handle) a h h' :
  l !! a = Some h → <[a := h']> l !! a = Some h'.
Proof. intros Hh. apply list_lookup_insert_eq. by eapply lookup_lt_Some. Qed.

(** X4. The element's [loadstart], [playing] and [ended] events reach the
    handle as the states Starting, Running and Stopped; [ended] also calls
    [successCallback], once and without argument; [errorCallback] is not
    called. *)
Theorem element_events_notify_state w media me :
  registered w media me →
  optional_function (statusCallback me) = true →
  optional_function (successCallback me) = true →
  Local.fire media Local.loadstart w
  = Some (Normal tt, log (state_notification me MEDIA_STARTING) w)
  ∧ Local.fire media Local.playing w
    = Some (Normal tt, log (state_notification me MEDIA_RUNNING) w)
  ∧ Local.fire media Local.ended w
    = Some (Normal tt,
            log (state_notification me MEDIA_STOPPED ++ calls (successCallback me) []) w).
Proof.
  intros [Hh Hr] Hstatus Hsuccess.
  js_callback (statusCallback me); js_callback (successCallback me);
    repeat split; js_unfold_all; js_eval; js_done.
Qed.

(** X5. A [durationchange] event caches the element's duration, and -1 when
    that duration is falsy (0, NaN, undefined): [getDuration] returns it
    right after. *)
Theorem durationchange_caches_duration w media me d :
  registered w media me →
  (do _ <- Local.fire media (Local.durationchange d); Local.getDuration media) w
  = Some (Normal (delivered_duration d),
          updated media (set_duration (delivered_duration d) me)
            [EvOnStatus (id me) (VNum MEDIA_DURATION) (delivered_duration d)] w).
Proof.
  intros [Hh Hr]. js_unfold_all. js_eval.
  rewrite (lookup_insert_same _ _ _ _ Hh). reflexivity.
Qed.

(** X6. An [error] event whose error object carries the code "source not
    supported" is reported with the "aborted" code; any other error object
    is reported as it is; when the element has no error object the handler
    raises and notifies nobody. *)
Theorem element_error_is_remapped w media me err :
  registered w media me →
  optional_function (errorCallback me) = true →
  (∀ o, err = VObj o →
     Local.fire media (Local.error err) w
     = Some (Normal tt,
             log (error_notification me
                    (if strict_eq_num (own_property o "code") MEDIA_ERR_SRC_NOT_SUPPORTED
                     then Local.aborted else err)) w))
  ∧ (is_nullish err = true →
     Local.fire media (Local.error err) w = Some (Throw (read_of_undefined "code"), w)).
Proof.
  intros [Hh Hr] Herror. js_callback (errorCallback me); split.
  all: try (intros o ->; js_unfold_all; js_eval; js_done).
  all: destruct err; try discriminate; intros _; reflexivity.
Qed.


(** Reading and writing the handle at [this] in a world where it has been
    replaced. *)
Ltac js_heap Hh :=
  repeat first
    [ rewrite list_insert_insert_eq
    | rewrite (lookup_insert_same _ _ _ _ Hh)
    | progress js_eval ].

(** X7. When [new Audio()] raises, or assigning the source does, the local
    constructor still returns the handle, registered and without element:
    the handle is notified of Starting and then of an Error with the
    "aborted" code. *)
Theorem local_constructor_reports_aborted w args uuid :
  optional_source_signature args = true →
  let this := length (heap w) in
  let me := init_fields args (blank uuid) in
  let starting := state_notification me MEDIA_STARTING in
  (∀ e, new_Audio = Throw e →
     Local.NocSonicMedia args uuid w
     = Some (Normal this,
             constructed uuid me
               (starting ++ EvNode NNew :: error_notification me Local.aborted) w))
  ∧ (∀ n e, new_Audio = Normal n → truthy (src me) = true →
       set_src (src me) n = Throw e →
       Local.NocSonicMedia args uuid w
       = Some (Normal this,
               constructed uuid me
                 (starting ++ EvNode NNew :: EvNode (NSetSrc (src me))
                    :: error_notification me Local.aborted) w)).
Proof.
  intros Hsig. pose proof (checkArgs_SFFF args) as Hcheck.
  rewrite Hsig in Hcheck.
  apply andb_true_iff in Hsig as [_ Hsig]. unfold optional_callbacks in Hsig.
  apply andb_true_iff in Hsig as [Hsig Hstatus].
  apply andb_true_iff in Hsig as [_ Herror].
  simpl. unfold constructed.
  destruct (nth 3 args VUndefined) eqn:E3; try discriminate;
    destruct (nth 2 args VUndefined) eqn:E2; try discriminate;
    (split; [intros e Hnew | intros n e Hnew Hsrc Hset]);
    js_unfold; js_eval; rewrite ?Hsrc; js_eval; rewrite ?Hset; js_eval;
    unfold state_notification, error_notification, init_fields; simpl;
    rewrite ?E2, ?E3; simpl;
    apply (f_equal Some); apply (f_equal (pair _)); apply world_eq;
    rewrite <- ?app_assoc; reflexivity.
Qed.

(** X8. When [new Audio()] succeeds the local constructor notifies
    Starting and keeps the new element in the handle; the source is
    assigned to the element only when it is truthy, so a handle made
    without source, or with the empty string, gets an element without
    source. *)
Theorem local_constructor_builds_element w args uuid n :
  optional_source_signature args = true →
  new_Audio = Normal n →
  let this := length (heap w) in
  let me := init_fields args (blank uuid) in
  let starting := state_notification me MEDIA_STARTING in
  (∀ n', truthy (src me) = true → set_src (src me) n = Normal n' →
     Local.NocSonicMedia args uuid w
     = Some (Normal this,
             constructed uuid (set_node (Some n') me)
               (starting ++ [EvNode NNew; EvNode (NSetSrc (src me))]) w))
  ∧ (truthy (src me) = false →
     Local.NocSonicMedia args uuid w
     = Some (Normal this,
             constructed uuid (set_node (Some n) me) (starting ++ [EvNode NNew]) w)).
Proof.
  intros Hsig Hnew. pose proof (checkArgs_SFFF args) as Hcheck.
  rewrite Hsig in Hcheck.
  apply andb_true_iff in Hsig as [_ Hsig]. unfold optional_callbacks in Hsig.
  apply andb_true_iff in Hsig as [Hsig Hstatus].
  simpl. unfold constructed.
  destruct (nth 3 args VUndefined) eqn:E3; try discriminate;
    (split; [intros n' Hsrc Hset | intros Hsrc]);
    js_unfold; js_eval; rewrite ?Hsrc; js_eval; rewrite ?Hset; js_eval;
    unfold state_notification, init_fields, set_node; simpl;
    rewrite ?E3; simpl;
    apply (f_equal Some); apply (f_equal (pair _)); apply world_eq;
    rewrite <- ?app_assoc; reflexivity.
Qed.

(** X9. With its element present, [pause] pauses the element and notifies
    Paused; when the element's [pause] raises, the error is reported as an
    Error notification and no Paused notification is made. *)
Theorem pause_notifies_or_reports w this me n :
  registered w this me →
  node me = Some n →
  optional_function (statusCallback me) = true →
  optional_function (errorCallback me) = true →
  (∀ n', node_pause n = Normal n' →
     Local.pause this w
     = Some (Normal tt,
             updated this (set_node (Some n') me)
               (EvNode NPause :: state_notification me MEDIA_PAUSED) w))
  ∧ (∀ e, node_pause n = Throw e →
       Local.pause this w
       = Some (Normal tt, log (EvNode NPause :: error_notification me e) w)).
Proof.
  intros [Hh Hr] Hnode Hstatus Herror.
  js_callback (statusCallback me); js_callback (errorCallback me);
    (split; [intros n' Hpause | intros e Hpause]);
    js_unfold_all; js_eval; rewrite Hpause; js_heap Hh; js_done.
Qed.


(** X10. With its element present and willing, [stop] pauses it, notifies
    Paused, rewinds it to 0, notifies Stopped and, Stopped being the
    completion, calls [successCallback]. *)
Theorem stop_pauses_rewinds_and_completes w this me n n1 n2 :
  registered w this me →
  node me = Some n →
  node_pause n = Normal n1 →
  set_currentTime (VNum 0) n1 = Normal n2 →
  optional_function (statusCallback me) = true →
  optional_function (successCallback me) = true →
  Local.stop this w
  = Some (Normal tt,
          updated this (set_node (Some n2) me)
            (EvNode NPause :: state_notification me MEDIA_PAUSED
               ++ EvNode (NSetCurrentTime (VNum 0))
               :: state_notification me MEDIA_STOPPED
               ++ calls (successCallback me) []) w).
Proof.
  intros [Hh Hr] Hnode Hpause Hseek Hstatus Hsuccess.
  js_callback (statusCallback me); js_callback (successCallback me);
    js_unfold_all; js_eval; rewrite Hpause; js_heap Hh;
    change (0 / 1000)%float with 0%float; rewrite Hseek; js_heap Hh; js_done.
Qed.

(** X11. With its element present, [seekTo] of the local client sets the
    element's time to the milliseconds divided by 1000 and leaves the cached
    position alone; when the element refuses, the error is reported as an
    Error notification. *)
Theorem seekTo_moves_the_element_only w this me n milliseconds :
  registered w this me →
  node me = Some n →
  optional_function (errorCallback me) = true →
  let t := VNum (ToNumber milliseconds / 1000) in
  (∀ n', set_currentTime t n = Normal n' →
     Local.seekTo this milliseconds w
     = Some (Normal tt,
             updated this (set_node (Some n') me) [EvNode (NSetCurrentTime t)] w))
  ∧ (∀ e, set_currentTime t n = Throw e →
       Local.seekTo this milliseconds w
       = Some (Normal tt,
               log (EvNode (NSetCurrentTime t) :: error_notification me e) w)).
Proof.
  intros [Hh Hr] Hnode Herror; simpl.
  js_callback (errorCallback me);
    (split; [intros n' Hseek | intros e Hseek]);
    js_unfold_all; js_eval; rewrite Hseek; js_heap Hh; js_done.
Qed.

(** X12. With its element present, [getCurrentPosition] of the local client
    caches [Number] of the element's time and hands the time to [success];
    when [success] is no function, the TypeError of calling it goes to
    [fail], the position being cached all the same. *)
Theorem getCurrentPosition_caches_and_reports w this me n p success fail :
  registered w this me →
  node me = Some n →
  get_currentTime n = Normal p →
  let cached :=
    updated this (set_position (VNum (ToNumber p)) me)
      [EvNode NGetCurrentTime; EvOnStatus (id me) (VNum MEDIA_POSITION) p] w in
  (∀ f, success = VFun f →
     Local.getCurrentPosition this success fail w
     = Some (Normal tt, log [EvCall f [p]] cached))
  ∧ (∀ g, is_function success = false → fail = VFun g →
       Local.getCurrentPosition this success fail w
       = Some (Normal tt, log [EvCall g [not_a_function]] cached)).
Proof.
  intros [Hh Hr] Hnode Hget; simpl.
  split; [intros f -> | intros g Hsuccess ->];
    js_unfold_all; js_eval; rewrite Hget; js_heap Hh; [js_done |].
  destruct success; try discriminate; js_eval; js_done.
Qed.

(** X13. [release] of the local client drops the element, notifies nobody
    and keeps the cached duration and position; releasing again changes
    nothing. *)
Theorem release_drops_the_element w this me :
  heap w !! this = Some me →
  let released := updated this (set_node None me) [] w in
  Local.release this w = Some (Normal tt, released)
  ∧ Local.release this released = Some (Normal tt, released)
  ∧ _duration <$> heap released !! this = Some (_duration me)
  ∧ _position <$> heap released !! this = Some (_position me).
Proof.
  intros Hh; simpl. repeat split; js_unfold_all; js_heap Hh;
    rewrite ?app_nil_r; reflexivity.
Qed.

End Elements.

Section BridgeCalls.
Context {host : Host}.
Implicit Types (w : world) (i uuid u : string) (a this : addr) (h me : handle).

(** X14. On the bridge client the cached position changes when the native
    side acknowledges: to 0 for [stop], to the acknowledged value as it
    came for [seekTo] and [getCurrentPosition], which then calls [success];
    when [success] is no function the acknowledgement raises after the
    position is cached. *)
Theorem acknowledgements_cache_position w this me p milliseconds fail :
  heap w !! this = Some me →
  let failed := errorCallback me in
  let about := VStr (id me) in
  (do _ <- Bridge.stop this; Bridge.resume (KStop this) p) w
  = Some (Normal tt,
          updated this (set_position (VNum 0) me)
            [EvExec (KStop this) failed "NocSonicMedia" "stopPlayingAudio" [about]] w)
  ∧ (do _ <- Bridge.seekTo this milliseconds; Bridge.resume (KSeekTo this) p) w
    = Some (Normal tt,
            updated this (set_position p me)
              [EvExec (KSeekTo this) failed "NocSonicMedia" "seekToAudio"
                 [about; milliseconds]] w)
  ∧ (∀ success,
       let k := KGetCurrentPosition this success in
       let asked :=
         EvExec k fail "NocSonicMedia" "getCurrentPositionAudio" [about] in
       (do _ <- Bridge.getCurrentPosition this success fail; Bridge.resume k p) w
       = match success with
         | VFun f =>
             Some (Normal tt,
                   updated this (set_position p me) [asked; EvCall f [p]] w)
         | _ =>
             Some (Throw not_a_function,
                   updated this (set_position p me) [asked] w)
         end).
Proof.
  intros Hh; simpl. repeat split; [| | intros success; destruct success];
    js_unfold_all; js_eval; try reflexivity; js_done.
Qed.


Lemma log_app es1 es2 w : log es2 (log es1 w) = log (es1 ++ es2) w.
Proof. unfold log; simpl. by rewrite app_assoc. Qed.

Lemma request_step o w :
  is_request o = true →
  ∃ es, after (Bridge.perform o) w = log es w
        ∧ Forall (λ e, asks_media_service e = true) es.
Proof.
  intros Ho. destruct o; try discriminate; simpl;
    unfold after; js_unfold_all; simpl;
    (destruct (heap w !! this) as [me|];
     [ eexists [_]; split; [reflexivity | by repeat constructor]
     | exists []; split; [by rewrite log_nil | constructor] ]).
Qed.

Lemma request_run ops w :
  Forall (λ o, is_request o = true) ops →
  ∃ es, Bridge.run ops w = log es w
        ∧ Forall (λ e, asks_media_service e = true) es.
Proof.
  intros Hops. revert w. induction Hops as [|o ops Ho _ IH]; intros w; simpl.
  - exists []. split; [by rewrite log_nil | constructor].
  - destruct (request_step o w Ho) as (es1 & -> & Hes1).
    destruct (IH (log es1 w)) as (es2 & -> & Hes2).
    exists (es1 ++ es2)%list. split; [apply log_app | by apply Forall_app].
Qed.

(** X15. The methods of the bridge client that forward a request change no
    handle and no registry entry: whatever their order and arguments, all
    they leave is requests to the "NocSonicMedia" service. *)
Theorem bridge_methods_only_ask w ops :
  Forall (λ o, is_request o = true) ops →
  heap (Bridge.run ops w) = heap w
  ∧ mediaObjects (Bridge.run ops w) = mediaObjects w
  ∧ Forall (λ e, asks_media_service e = true) (events_since w (Bridge.run ops w)).
Proof.
  intros Hops. destruct (request_run ops w Hops) as (es & -> & Hes).
  repeat split. by rewrite (events_since_log w (log es w) es).
Qed.

(** X16. A message of a type [onStatus] does not know, for a registered
    handle, is logged and changes nothing; the types are compared with
    [===], so a type delivered as text is not known either. *)
Theorem onStatus_unhandled_type w i m msgType value :
  resolves w i m →
  switch_msgType msgType = CaseDefault →
  let unhandled :=
    log [EvOnStatus i msgType value;
         EvConsoleError "Unhandled NocSonicMedia.onStatus :: " msgType] w in
  Bridge.onStatus i msgType value w = Some (Normal tt, unhandled)
  ∧ Local.onStatus i msgType value w = Some (Normal tt, unhandled).
Proof.
  intros (a & Hr & Hh) Hcase; simpl.
  split; js_unfold; js_eval; rewrite Hcase; js_eval; js_done.
Qed.


End BridgeCalls.

(** ** Calls as sequences of steps *)

Section Within.
Context {host : Host} (okev : event → Prop) (okf : (handle → handle) → Prop).
Context (R : relation world) `{!PreOrder R}.
Implicit Types (w : world) (i uuid u : string) (a this : addr) (h me : handle).

(** [R] holds across the logging of an allowed event and across an allowed
    update of a handle. *)
Hypothesis R_log : ∀ w e, okev e → R w (log [e] w).
Hypothesis R_store :
  ∀ w a h f, heap w !! a = Some h → okf f →
    R w (World (<[a := f h]> (heap w)) (mediaObjects w) (trace w)).
(** [R] holds across the first steps of an accepted constructor call. *)
Hypothesis R_new :
  ∀ w u args, optional_callbacks args = true → R w (initialised u args w).

(** What both clients log and update. *)
Hypothesis ok_status : ∀ i msgType value, okev (EvOnStatus i msgType value).
Hypothesis ok_call : ∀ f args, okev (EvCall f args).
Hypothesis ok_console : ∀ text arg, okev (EvConsoleError text arg).
Hypothesis ok_position : ∀ v, okf (set_position v).
Hypothesis ok_duration : ∀ v, okf (set_duration v).
(** What the bridge client logs. *)
Hypothesis ok_exec : ∀ k f service action args, okev (EvExec k f service action args).
(** What the local client logs and updates. *)
Hypothesis ok_node : ∀ op, okev (EvNode op).
Hypothesis ok_set_node : ∀ n, okf (set_node n).

Lemma within_ret {A} (x : A) : preserves R (ret x).
Proof. intros w r w' [= <- <-]. reflexivity. Qed.

Lemma within_throw {A} (e : jsval) : preserves R (throw (A := A) e).
Proof. intros w r w' [= <- <-]. reflexivity. Qed.

Lemma within_bind {A B} (m : M A) (k : A → M B) :
  preserves R m → (∀ x, preserves R (k x)) → preserves R (bind m k).
Proof.
  intros Hm Hk w r w' Hrun. unfold bind in Hrun.
  destruct (m w) as [[[x|e] w1]|] eqn:Hmw; [| | done].
  - etransitivity; [by eapply Hm | by eapply Hk].
  - injection Hrun as <- <-. by eapply Hm.
Qed.

Lemma within_try_catch {A} (m : M A) (handler : jsval → M A) :
  preserves R m → (∀ e, preserves R (handler e)) → preserves R (try_catch m handler).
Proof.
  intros Hm Hh w r w' Hrun. unfold try_catch in Hrun.
  destruct (m w) as [[[x|e] w1]|] eqn:Hmw; [| | done].
  - injection Hrun as <- <-. by eapply Hm.
  - etransitivity; [by eapply Hm | by eapply Hh].
Qed.

Lemma within_emit e : okev e → preserves R (emit e).
Proof. intros He w r w' [= <- <-]. by apply R_log. Qed.

Lemma within_load a : preserves R (load a).
Proof.
  intros w r w' Hrun. unfold load in Hrun.
  destruct (heap w !! a); [| done]. injection Hrun as <- <-. reflexivity.
Qed.

Lemma within_registry_get i : preserves R (registry_get i).
Proof. intros w r w' [= <- <-]. reflexivity. Qed.

Lemma within_uncovered {A} : preserves R (@uncovered _ A).
Proof. by intros w r w' Hrun. Qed.

Lemma within_store a f : okf f → preserves R (store a f).
Proof.
  intros Hf w r w' Hrun. unfold store in Hrun.
  destruct (heap w !! a) eqn:Hh; [| done]. injection Hrun as <- <-.
  by apply R_store.
Qed.

Lemma within_host_op {A} op (c : completion A) : preserves R (host_op op c).
Proof. intros w r w' [= <- <-]. apply (R_log w (EvNode op)), ok_node. Qed.

Lemma within_call f args : preserves R (call f args).
Proof.
  destruct f; try apply within_throw. apply within_emit, ok_call.
Qed.

Lemma within_call_if_set f args : preserves R (call_if_set f args).
Proof.
  unfold call_if_set. destruct (truthy f); [apply within_call | apply within_ret].
Qed.

Lemma within_after (m : M unit) w : preserves R m → R w (after m w).
Proof.
  intros Hm. unfold after. destruct (m w) as [[r w']|] eqn:Hrun; [| reflexivity].
  by eapply Hm.
Qed.

Ltac within_step :=
  first
    [ apply within_ret
    | apply within_throw
    | apply within_uncovered
    | apply within_load
    | apply within_registry_get
    | apply within_host_op
    | apply within_call_if_set
    | apply within_call
    | apply within_store; first [apply ok_position | apply ok_duration | apply ok_set_node]
    | apply within_emit;
      first [apply ok_status | apply ok_console | apply ok_exec | apply ok_call]
    | apply within_bind; [| intros ?]
    | apply within_try_catch; [| intros ?]
    | match goal with
      | |- preserves _ (match ?x with _ => _ end) => destruct x
      end ].

Lemma within_bridge_onStatus i msgType value :
  preserves R (Bridge.onStatus i msgType value).
Proof. unfold Bridge.onStatus, console_error. repeat within_step. Qed.

Lemma within_local_onStatus i msgType value :
  preserves R (Local.onStatus i msgType value).
Proof. unfold Local.onStatus, console_error. repeat within_step. Qed.

Lemma within_notify this msgType value :
  preserves R (Local.notify this msgType value).
Proof.
  unfold Local.notify. apply within_bind; [apply within_load | intros me].
  apply within_local_onStatus.
Qed.

Lemma within_build_node this : preserves R (Local.build_node this).
Proof.
  unfold Local.build_node, Local.createNode.
  apply within_try_catch; [| intros; apply within_notify].
  repeat within_step.
Qed.

Lemma within_this_node this e : preserves R (Local.this_node this e).
Proof. unfold Local.this_node. repeat within_step. Qed.

Ltac within_local :=
  repeat first
    [ apply within_notify
    | apply within_build_node
    | apply within_this_node
    | apply within_local_onStatus
    | within_step ].

Lemma within_local_pause this : preserves R (Local.pause this).
Proof. unfold Local.pause. within_local. Qed.

Lemma within_local_seekTo this ms : preserves R (Local.seekTo this ms).
Proof. unfold Local.seekTo. within_local. Qed.

Lemma within_local_stop this : preserves R (Local.stop this).
Proof.
  unfold Local.stop.
  apply within_try_catch; [| intros; apply within_notify].
  apply within_bind; [apply within_local_pause | intros _].
  apply within_bind; [apply within_local_seekTo | intros _].
  apply within_notify.
Qed.

(** The first steps of a constructor, taken at once. *)
Lemma new_enter {A} u args (k : addr → M A) w r w' :
  (do this <- alloc (blank u);
   registry_set u this ;;
   store this (init_fields args) ;;
   k this) w = Some (r, w') →
  k (length (heap w)) (initialised u args w) = Some (r, w').
Proof.
  unfold bind, alloc, registry_set, store, initialised. simpl.
  by rewrite lookup_new, insert_new.
Qed.

Lemma checkArgs_callbacks spec args :
  spec = "sFFF" ∨ spec = "SFFF" →
  checkArgs spec "NocSonicMedia" args = None →
  optional_callbacks args = true.
Proof.
  intros [-> | ->] Hcheck.
  - pose proof (checkArgs_sFFF args) as H. unfold required_source_signature in H.
    destruct (optional_callbacks args); [done |].
    rewrite andb_false_r in H. destruct H as [message H]. congruence.
  - pose proof (checkArgs_SFFF args) as H. unfold optional_source_signature in H.
    destruct (optional_callbacks args); [done |].
    rewrite andb_false_r in H. destruct H as [message H]. congruence.
Qed.

Lemma within_bridge_new args uuid : preserves R (Bridge.NocSonicMedia args uuid).
Proof.
  intros w r w' Hrun. unfold Bridge.NocSonicMedia, Bridge.NocSonicMedia_over in Hrun.
  destruct (checkArgs "sFFF" "NocSonicMedia" args) eqn:Hcheck.
  - injection Hrun as <- <-. reflexivity.
  - apply new_enter in Hrun. etransitivity.
    + apply (R_new w uuid args). eapply checkArgs_callbacks; [by left | done].
    + refine ((_ : preserves R _) _ _ _ Hrun). unfold Bridge.exec.
      repeat within_step.
Qed.

Lemma within_local_new args uuid : preserves R (Local.NocSonicMedia args uuid).
Proof.
  intros w r w' Hrun. unfold Local.NocSonicMedia in Hrun.
  destruct (checkArgs "SFFF" "NocSonicMedia" args) eqn:Hcheck.
  - injection Hrun as <- <-. reflexivity.
  - apply new_enter in Hrun. etransitivity.
    + apply (R_new w uuid args). eapply checkArgs_callbacks; [by right | done].
    + refine ((_ : preserves R _) _ _ _ Hrun). within_local.
Qed.

(** Every call on the bridge client. *)
Lemma within_bridge_perform o : preserves R (Bridge.perform o).
Proof.
  destruct o; simpl;
    first [ apply within_bridge_onStatus
          | apply within_bind; [apply within_bridge_new | intros; apply within_ret]
          | idtac ];
    unfold Bridge.get, Bridge.play, Bridge.stop, Bridge.seekTo, Bridge.pause,
      Bridge.getDuration, Bridge.getCurrentPosition, Bridge.startRecord,
      Bridge.stopRecord, Bridge.release, Bridge.setVolume, Bridge.resume,
      Bridge.onMessageFromNative, Bridge.exec, forget;
    repeat first [apply within_bridge_onStatus | within_step].
Qed.

(** Every call on the local client. *)
Lemma within_local_perform o : preserves R (Local.perform o).
Proof.
  destruct o; simpl;
    first [ apply within_local_pause | apply within_local_seekTo
          | apply within_local_stop | apply within_local_onStatus
          | apply within_bind; [apply within_local_new | intros; apply within_ret]
          | idtac ];
    unfold Local.play, Local.getDuration, Local.getCurrentPosition,
      Local.startRecord, Local.stopRecord, Local.release, Local.setVolume,
      Local.fire, Local.get_code, forget;
    within_local.
Qed.

Lemma within_bridge_run ops w : R w (Bridge.run ops w).
Proof.
  revert w. induction ops as [|o ops IH]; intros w; simpl; [reflexivity |].
  etransitivity; [apply within_after, within_bridge_perform | apply IH].
Qed.

Lemma within_local_run ops w : R w (Local.run ops w).
Proof.
  revert w. induction ops as [|o ops IH]; intros w; simpl; [reflexivity |].
  etransitivity; [apply within_after, within_local_perform | apply IH].
Qed.

End Within.

(** ** What every session keeps *)

Section Invariants.
Context {host : Host}.
Implicit Types (w : world) (i uuid u : string) (a this : addr) (h me : handle).

Global Instance keeps_identity_preorder : PreOrder keeps_identity.
Proof.
  split.
  - intros w a h Hh. exists h. by repeat split.
  - intros w1 w2 w3 H12 H23 a h Hh.
    destruct (H12 a h Hh) as (h2 & Hh2 & I2).
    destruct (H23 a h2 Hh2) as (h3 & Hh3 & I3).
    exists h3. split; [done |].
    destruct I2 as (? & ? & ? & ? & ?), I3 as (? & ? & ? & ? & ?).
    repeat split; congruence.
Qed.

Lemma keeps_identity_store w a h f :
  heap w !! a = Some h → (∀ h0, same_identity h0 (f h0)) →
  keeps_identity w (World (<[a := f h]> (heap w)) (mediaObjects w) (trace w)).
Proof.
  intros Hh Hf b hb Hb. simpl. rewrite (lookup_update _ a b h (f h) Hh).
  destruct (decide (a = b)) as [<-|].
  - exists (f h). split; [done |]. assert (hb = h) as -> by congruence. apply Hf.
  - exists hb. by repeat split.
Qed.

Lemma keeps_identity_new w u args : keeps_identity w (initialised u args w).
Proof.
  intros a h Hh. exists h. simpl. split; [by apply lookup_app_l_Some |].
  by repeat split.
Qed.

(** X18. Whatever is called, on either client, a handle stays at its
    address with the id, the source and the three callbacks it was made
    with. *)
Theorem handles_keep_their_identity a h :
  (∀ ops w, heap w !! a = Some h →
     ∃ h', heap (Bridge.run ops w) !! a = Some h' ∧ same_identity h h')
  ∧ (∀ ops w, heap w !! a = Some h →
       ∃ h', heap (Local.run ops w) !! a = Some h' ∧ same_identity h h').
Proof.
  split; intros ops w Hh.
  - refine (within_bridge_run (λ _, True) (λ f, ∀ h0, same_identity h0 (f h0))
              keeps_identity _ _ _ _ _ _ _ _ _ ops w a h Hh);
      try done.
    + intros w0 e _ b hb Hb. exists hb. by repeat split.
    + intros w0 b hb f Hb Hf. by apply keeps_identity_store.
    + intros w0 u args _. apply keeps_identity_new.
  - refine (within_local_run (λ _, True) (λ f, ∀ h0, same_identity h0 (f h0))
              keeps_identity _ _ _ _ _ _ _ _ _ _ ops w a h Hh);
      try done.
    + intros w0 e _ b hb Hb. exists hb. by repeat split.
    + intros w0 b hb f Hb Hf. by apply keeps_identity_store.
    + intros w0 u args _. apply keeps_identity_new.
Qed.

(** X19. The bridge client never builds or operates an audio element, and
    the local client never sends a request to the native side. *)
Theorem clients_keep_to_their_engine :
  (∀ ops w, elementless w → elementless (Bridge.run ops w))
  ∧ (∀ ops w, requestless w → requestless (Local.run ops w)).
Proof.
  split; intros ops w.
  - refine (within_bridge_run (λ e, is_node_event e = false)
              (λ f, ∀ h0, node (f h0) = node h0)
              (λ w1 w2, elementless w1 → elementless w2) _ _ _ _ _ _ _ _ _ ops w);
      try done.
    + split; [by intros ? | intros w1 w2 w3 H12 H23 H1; auto].
    + intros w0 e He [Hnodes Htrace]. split; [done |]. simpl.
      apply Forall_app. split; [done | by repeat constructor].
    + intros w0 b hb f Hb Hf [Hnodes Htrace]. split; [| done]. simpl.
      intros c hc. rewrite (lookup_update _ b c hb (f hb) Hb).
      destruct (decide (b = c)) as [<-|]; [| by apply Hnodes].
      intros [= <-]. rewrite Hf. by eapply Hnodes.
    + intros w0 u args _ [Hnodes Htrace]. split; [| done]. simpl.
      intros c hc Hc. apply lookup_app_Some in Hc as [Hc | [_ Hc]].
      * by eapply Hnodes.
      * apply list_lookup_singleton_Some in Hc as [_ <-]. reflexivity.
  - refine (within_local_run (λ e, is_exec e = false) (λ _, True)
              (λ w1 w2, requestless w1 → requestless w2) _ _ _ _ _ _ _ _ _ _ ops w);
      try done.
    + split; [by intros ? | intros w1 w2 w3 H12 H23 H1; auto].
    + intros w0 e He Htrace. unfold requestless. simpl.
      apply Forall_app. split; [done | by repeat constructor].
Qed.

Lemma checked_store w a h f :
  heap w !! a = Some h → (∀ h0, same_identity h0 (f h0)) →
  checked w → checked (World (<[a := f h]> (heap w)) (mediaObjects w) (trace w)).
Proof.
  intros Hh Hf [Hwf Hcb]. destruct (Hf h) as (Hid & _ & Hs & He & Ht). split.
  - by eapply well_formed_update.
  - intros b hb. simpl. rewrite (lookup_update _ a b h (f h) Hh).
    destruct (decide (a = b)) as [<-|]; [| by apply Hcb].
    intros [= <-]. rewrite Hs, He, Ht. by eapply Hcb.
Qed.

Lemma checked_new w u args :
  optional_callbacks args = true → checked w → checked (initialised u args w).
Proof.
  intros Hargs [Hwf Hcb]. split.
  - by apply (well_formed_constructed w u (init_fields args (blank u)) []).
  - intros b hb Hb. simpl in Hb. apply lookup_app_Some in Hb as [Hb | [_ Hb]].
    + by eapply Hcb.
    + apply list_lookup_singleton_Some in Hb as [_ <-]. simpl.
      unfold optional_callbacks in Hargs.
      apply andb_true_iff in Hargs as [Hargs Ht].
      by apply andb_true_iff in Hargs as [Hs He].
Qed.

Lemma empty_world_checked : checked empty_world.
Proof.
  split; [apply empty_world_well_formed |]. intros a h Hh. by destruct a.
Qed.

Lemma bridge_run_checked ops w : checked w → checked (Bridge.run ops w).
Proof.
  refine (within_bridge_run (λ _, True) (λ f, ∀ h0, same_identity h0 (f h0))
            (λ w1 w2, checked w1 → checked w2) _ _ _ _ _ _ _ _ _ ops w);
    try done.
  - split; [by intros ? | intros w1 w2 w3 H12 H23 H1; auto].
  - intros w0 b hb f Hb Hf. by apply checked_store.
  - intros w0 u args Hargs. by apply checked_new.
Qed.

Lemma local_run_checked ops w : checked w → checked (Local.run ops w).
Proof.
  refine (within_local_run (λ _, True) (λ f, ∀ h0, same_identity h0 (f h0))
            (λ w1 w2, checked w1 → checked w2) _ _ _ _ _ _ _ _ _ _ ops w);
    try done.
  - split; [by intros ? | intros w1 w2 w3 H12 H23 H1; auto].
  - intros w0 b hb f Hb Hf. by apply checked_store.
  - intros w0 u args Hargs. by apply checked_new.
Qed.

(** X20. Whatever is called, on either client, every registry entry leads
    to a handle that carries the entry's key as its id, and every handle's
    callbacks are functions or unset; so it is in the empty world. *)
Theorem sessions_stay_checked :
  (∀ ops w, checked w → checked (Bridge.run ops w))
  ∧ (∀ ops w, checked w → checked (Local.run ops w))
  ∧ checked empty_world.
Proof.
  split; [| split].
  - apply bridge_run_checked.
  - apply local_run_checked.
  - apply empty_world_checked.
Qed.

(** In a checked world [onStatus] returns, for an id within the model. *)
Lemma bridge_onStatus_returns w i msgType value :
  checked w → covered w i →
  ∃ w', Bridge.onStatus i msgType value w = Some (Normal tt, w').
Proof.
  intros [Hwf Hcb] Hi.
  destruct (mediaObjects w !! i) as [a|] eqn:Hr.
  - destruct (Hwf i a Hr) as (h & Hh & _).
    destruct (Hcb a h Hh) as (Hs & He & Ht).
    js_unfold; js_eval; destruct (switch_msgType msgType); js_eval;
      try (by eexists);
      js_callback (statusCallback h); js_callback (successCallback h);
      js_callback (errorCallback h); js_eval;
      try (by eexists);
      match goal with |- context [if ?b then _ else _] => destruct b end;
      js_eval; by eexists.
  - specialize (Hi Hr). js_unfold; js_eval; by eexists.
Qed.

Lemma local_onStatus_returns w i msgType value :
  checked w → covered w i →
  ∃ w', Local.onStatus i msgType value w = Some (Normal tt, w').
Proof.
  intros [Hwf Hcb] Hi.
  destruct (mediaObjects w !! i) as [a|] eqn:Hr.
  - destruct (Hwf i a Hr) as (h & Hh & _).
    destruct (Hcb a h Hh) as (Hs & He & Ht).
    js_unfold; js_eval; destruct (switch_msgType msgType); js_eval;
      try (by eexists);
      js_callback (statusCallback h); js_callback (successCallback h);
      js_callback (errorCallback h); js_eval;
      try (by eexists);
      match goal with |- context [if ?b then _ else _] => destruct b end;
      js_eval; by eexists.
  - specialize (Hi Hr). js_unfold; js_eval; by eexists.
Qed.

(** X21. In such a world [onStatus] returns for every message type and
    value that is a primitive (undefined, null, a boolean, a number or a
    string), whether the type is recognised or not, and for every id that
    is a key of the registry or no name the registry object inherits: it
    does not raise.  Both clients. *)
Theorem onStatus_never_raises w i msgType value :
  checked w →
  covered w i →
  is_primitive msgType = true →
  is_primitive value = true →
  (∃ w', Bridge.onStatus i msgType value w = Some (Normal tt, w'))
  ∧ (∃ w', Local.onStatus i msgType value w = Some (Normal tt, w')).
Proof.
  intros Hchecked Hi _ _. split.
  - by apply bridge_onStatus_returns.
  - by apply local_onStatus_returns.
Qed.

End Invariants.

(** ** Calls that return whatever the element does *)

Section Returns.
Context {host : Host} (this : addr).
Implicit Types (w : world) (i uuid u : string) (a : addr) (h me : handle).

Lemma returns_ends {A} (m : M A) : returns this m → ends this m.
Proof. intros Hm w Hw. destruct (Hm w Hw) as (x & w' & ? & ?). eauto. Qed.

Lemma returns_ret {A} (x : A) : returns this (ret x).
Proof. intros w Hw. by exists x, w. Qed.

Lemma ends_throw {A} (e : jsval) : ends this (throw (A := A) e).
Proof. intros w Hw. by exists (Throw e), w. Qed.

Lemma returns_bind {A B} (m : M A) (k : A → M B) :
  returns this m → (∀ x, returns this (k x)) → returns this (bind m k).
Proof.
  intros Hm Hk w Hw. destruct (Hm w Hw) as (x & w1 & Hrun & Hw1).
  unfold bind. rewrite Hrun. by apply Hk.
Qed.

Lemma ends_bind {A B} (m : M A) (k : A → M B) :
  ends this m → (∀ x, ends this (k x)) → ends this (bind m k).
Proof.
  intros Hm Hk w Hw. destruct (Hm w Hw) as ([x|e] & w1 & Hrun & Hw1);
    unfold bind; rewrite Hrun; [by apply Hk | eauto].
Qed.

Lemma returns_try_catch {A} (m : M A) (handler : jsval → M A) :
  ends this m → (∀ e, returns this (handler e)) → returns this (try_catch m handler).
Proof.
  intros Hm Hh w Hw. destruct (Hm w Hw) as ([x|e] & w1 & Hrun & Hw1);
    unfold try_catch; rewrite Hrun; [eauto | by apply Hh].
Qed.

Lemma good_log w es : good this w → good this (log es w).
Proof. done. Qed.

Lemma good_store w f :
  (∀ h0, same_identity h0 (f h0)) →
  good this w →
  ∃ me, heap w !! this = Some me
        ∧ good this (World (<[this := f me]> (heap w)) (mediaObjects w) (trace w)).
Proof.
  intros Hf [Hchecked (me & Hh & Hr)]. exists me. split; [done |]. split.
  - by apply checked_store.
  - exists (f me). destruct (Hf me) as (Hid & _). split; simpl.
    + by rewrite (lookup_insert_same _ _ _ _ Hh).
    + by rewrite Hid.
Qed.

Lemma returns_emit e : returns this (emit e).
Proof. intros w Hw. exists tt, (log [e] w). by split. Qed.

Lemma ends_host_op {A} op (c : completion A) : ends this (host_op op c).
Proof. intros w Hw. exists c, (log [EvNode op] w). by split. Qed.

Lemma returns_load : returns this (load this).
Proof.
  intros w Hw. destruct Hw as [Hc (me & Hh & Hr)]. exists me, w.
  unfold load. rewrite Hh. split; [done |]. split; eauto. by exists me.
Qed.

Lemma returns_store f :
  (∀ h0, same_identity h0 (f h0)) → returns this (store this f).
Proof.
  intros Hf w Hw. destruct (good_store w f Hf Hw) as (me & Hh & Hgood).
  eexists tt, _. unfold store. rewrite Hh. by split.
Qed.

Lemma ends_call f args : ends this (call f args).
Proof.
  destruct f; try apply ends_throw. apply returns_ends, returns_emit.
Qed.

Lemma returns_onStatus w i msgType value :
  good this w → covered w i →
  ∃ w', Local.onStatus i msgType value w = Some (Normal tt, w') ∧ good this w'.
Proof.
  intros Hw Hi. pose proof Hw as [Hc Hreg].
  destruct (local_onStatus_returns w i msgType value Hc Hi) as [w' Hrun].
  exists w'. split; [done |].
  refine (within_local_onStatus (λ _, True) (λ f, ∀ h0, same_identity h0 (f h0))
            (λ w1 w2, good this w1 → good this w2) _ _ _ _ _ _ _
            i msgType value w (Normal tt) w' Hrun Hw); try done.
  - split; [by intros ? | intros w1 w2 w3 H12 H23 H1; auto].
  - intros w0 b hb f Hb Hf [Hc0 (me & Hh & Hr)]. split; [by apply checked_store |].
    destruct (Hf hb) as (Hid & _).
    destruct (decide (b = this)) as [->|Hne].
    + exists (f hb). assert (hb = me) as -> by congruence. split; simpl.
      * by rewrite (lookup_insert_same _ _ _ _ Hb).
      * by rewrite Hid.
    + exists me. split; simpl; [| done]. by rewrite list_lookup_insert_ne.
Qed.

Lemma returns_notify msgType value :
  returns this (Local.notify this msgType value).
Proof.
  intros w Hw. pose proof Hw as [_ (me & Hh & Hr)].
  destruct (returns_onStatus w (id me) (VNum msgType) value Hw) as (w' & Hrun & Hw').
  { intros Hnone. congruence. }
  exists tt, w'. split; [| done].
  unfold Local.notify, bind, load. by rewrite Hh.
Qed.

Lemma ends_this_node e : ends this (Local.this_node this e).
Proof.
  unfold Local.this_node. apply ends_bind; [apply returns_ends, returns_load |].
  intros me. destruct (node me); [apply returns_ends, returns_ret | apply ends_throw].
Qed.

Lemma same_identity_set_node n h0 : same_identity h0 (set_node n h0).
Proof. by repeat split. Qed.

Ltac returns_step :=
  first
    [ apply returns_notify
    | apply returns_ret
    | apply returns_store, same_identity_set_node
    | apply returns_try_catch; [| intros ?] ].

Ltac ends_step :=
  first
    [ returns_step
    | apply returns_ends; returns_step
    | apply ends_this_node
    | apply ends_host_op
    | apply ends_call
    | apply ends_throw
    | apply ends_bind; [| intros ?] ].

Lemma returns_pause : returns this (Local.pause this).
Proof. unfold Local.pause. repeat ends_step. Qed.

Lemma returns_seekTo ms : returns this (Local.seekTo this ms).
Proof. unfold Local.seekTo. repeat ends_step. Qed.

Lemma returns_stop : returns this (Local.stop this).
Proof.
  unfold Local.stop. apply returns_try_catch; [| intros; apply returns_notify].
  apply ends_bind; [apply returns_ends, returns_pause | intros _].
  apply ends_bind; [apply returns_ends, returns_seekTo | intros _].
  apply returns_ends, returns_notify.
Qed.

(** X22. In such a world [pause], [seekTo], [stop], [release],
    [startRecord] and [stopRecord] of the local client return whatever the
    element does, present or not, and so does [getCurrentPosition] when
    [fail] is a function. *)
Theorem guarded_methods_never_raise w me milliseconds success fail :
  checked w →
  registered w this me →
  (∃ w', Local.pause this w = Some (Normal tt, w'))
  ∧ (∃ w', Local.seekTo this milliseconds w = Some (Normal tt, w'))
  ∧ (∃ w', Local.stop this w = Some (Normal tt, w'))
  ∧ (∃ w', Local.release this w = Some (Normal tt, w'))
  ∧ (∃ w', Local.startRecord this w = Some (Normal tt, w'))
  ∧ (∃ w', Local.stopRecord this w = Some (Normal tt, w'))
  ∧ (∃ w', Local.getCurrentPosition this success (VFun fail) w = Some (Normal tt, w')).
Proof.
  intros Hc Hreg. assert (good this w) as Hw by (split; eauto).
  assert (∀ m : M unit, returns this m → ∃ w', m w = Some (Normal tt, w')) as H.
  { intros m Hm. destruct (Hm w Hw) as ([] & w' & Hrun & _). eauto. }
  repeat split; apply H.
  - apply returns_pause.
  - apply returns_seekTo.
  - apply returns_stop.
  - unfold Local.release. repeat ends_step.
  - apply returns_notify.
  - apply returns_notify.
  - unfold Local.getCurrentPosition.
    apply returns_try_catch; [repeat ends_step | intros e; apply returns_emit].
Qed.

End Returns.

(** ** More properties at work *)

Lemma studio_checked : checked studio.
Proof. exact (local_run_checked [Local.New track_args "u1"] empty_world empty_world_checked). Qed.

Lemma released_studio_checked : checked released_studio.
Proof.
  exact (local_run_checked [Local.New track_args "u1"; Local.Release 0]
           empty_world empty_world_checked).
Qed.

Lemma element_events_notify_state_witness :
  @Local.fire browser 0 Local.ended studio
  = Some (Normal tt,
          log [EvOnStatus "u1" (VNum MEDIA_STATE) (VNum MEDIA_STOPPED);
               EvCall 3 [VNum MEDIA_STOPPED]; EvCall 1 []] studio).
Proof.
  refine (proj2 (proj2
    (@element_events_notify_state browser studio 0 track _ _ _))).
  - exact studio_track.
  - reflexivity.
  - reflexivity.
Defined.

Lemma durationchange_caches_duration_witness :
  (do _ <- @Local.fire browser 0 (Local.durationchange (VNum 0));
   Local.getDuration 0) studio
  = Some (Normal (VNum (-1)),
          World [track] (mediaObjects studio)
            (track_made ++ [EvOnStatus "u1" (VNum MEDIA_DURATION) (VNum (-1))])).
Proof.
  refine (@durationchange_caches_duration browser studio 0 track (VNum 0) _).
  exact studio_track.
Defined.

Lemma element_error_is_remapped_witness :
  @Local.fire browser 0 (Local.error (code_object (VNum 4))) studio
  = Some (Normal tt,
          log [EvOnStatus "u1" (VNum MEDIA_ERROR) (code_object (VNum 1));
               EvCall 2 [code_object (VNum 1)]] studio).
Proof.
  refine (proj1
    (@element_error_is_remapped browser studio 0 track (code_object (VNum 4)) _ _)
    _ eq_refl).
  - exact studio_track.
  - reflexivity.
Defined.

Lemma local_constructor_reports_aborted_witness :
  @Local.NocSonicMedia no_audio track_args "u1" empty_world
  = Some (Normal 0,
          World [deaf_track] {["u1" := 0]}
            [EvOnStatus "u1" (VNum MEDIA_STATE) (VNum MEDIA_STARTING);
             EvCall 3 [VNum MEDIA_STARTING]; EvNode NNew;
             EvOnStatus "u1" (VNum MEDIA_ERROR) (code_object (VNum 1));
             EvCall 2 [code_object (VNum 1)]]).
Proof.
  refine (proj1
    (@local_constructor_reports_aborted no_audio empty_world track_args "u1" _)
    (VError "ReferenceError" "Audio is not defined") _); reflexivity.
Defined.

Lemma local_constructor_builds_element_witness :
  @Local.NocSonicMedia browser [VStr ""] "u2" studio
  = Some (Normal 1,
          World [track;
                 @Handle browser "u2" (VStr "") VUndefined VUndefined VUndefined
                   (VNum (-1)) (VNum (-1)) (Some (Audio (VStr "") (VNum 0) (VNum 1) true))]
            (<["u2" := 1]> (mediaObjects studio))
            (track_made ++ [EvOnStatus "u2" (VNum MEDIA_STATE) (VNum MEDIA_STARTING);
                            EvNode NNew])).
Proof.
  refine (proj2
    (@local_constructor_builds_element browser studio [VStr ""] "u2"
       (Audio (VStr "") (VNum 0) (VNum 1) true) _ _) _); reflexivity.
Defined.

Lemma pause_notifies_or_reports_witness :
  @Local.pause browser 0 studio
  = Some (Normal tt,
          World [set_node (Some track_audio) track] (mediaObjects studio)
            (track_made ++ [EvNode NPause;
                            EvOnStatus "u1" (VNum MEDIA_STATE) (VNum MEDIA_PAUSED);
                            EvCall 3 [VNum MEDIA_PAUSED]])).
Proof.
  refine (proj1
    (@pause_notifies_or_reports browser studio 0 track track_audio _ _ _ _)
    track_audio _).
  - exact studio_track.
  - reflexivity.
  - reflexivity.
  - reflexivity.
  - reflexivity.
Defined.

Lemma stop_pauses_rewinds_and_completes_witness :
  @Local.stop browser 0 studio
  = Some (Normal tt,
          World [track] (mediaObjects studio)
            (track_made ++ [EvNode NPause;
                            EvOnStatus "u1" (VNum MEDIA_STATE) (VNum MEDIA_PAUSED);
                            EvCall 3 [VNum MEDIA_PAUSED];
                            EvNode (NSetCurrentTime (VNum 0));
                            EvOnStatus "u1" (VNum MEDIA_STATE) (VNum MEDIA_STOPPED);
                            EvCall 3 [VNum MEDIA_STOPPED]; EvCall 1 []])).
Proof.
  refine (@stop_pauses_rewinds_and_completes browser studio 0 track
            track_audio track_audio track_audio _ _ _ _ _ _).
  - exact studio_track.
  - reflexivity.
  - reflexivity.
  - reflexivity.
  - reflexivity.
  - reflexivity.
Defined.

Lemma seekTo_moves_the_element_only_witness :
  @Local.seekTo browser 0 (VNum 1500) studio
  = Some (Normal tt,
          World [@set_node browser
                   (Some (Audio (VStr "track.mp3") (VNum 1.5) (VNum 1) true)) track]
            (mediaObjects studio)
            (track_made ++ [EvNode (NSetCurrentTime (VNum 1.5))])).
Proof.
  refine (proj1
    (@seekTo_moves_the_element_only browser studio 0 track track_audio
       (VNum 1500) _ _ _) _ _).
  - exact studio_track.
  - reflexivity.
  - reflexivity.
  - reflexivity.
Defined.

Lemma getCurrentPosition_caches_and_reports_witness :
  @Local.getCurrentPosition browser 0 VUndefined (VFun 7) studio
  = Some (Normal tt,
          World [set_position (VNum 0) track] (mediaObjects studio)
            (track_made ++ [EvNode NGetCurrentTime;
                            EvOnStatus "u1" (VNum MEDIA_POSITION) (VNum 0);
                            EvCall 7 [not_a_function]])).
Proof.
  refine (proj2
    (@getCurrentPosition_caches_and_reports browser studio 0 track track_audio
       (VNum 0) VUndefined (VFun 7) _ _ _) 7 _ _).
  - exact studio_track.
  - reflexivity.
  - reflexivity.
  - reflexivity.
  - reflexivity.
Defined.

Lemma release_drops_the_element_witness :
  @Local.release browser 0 studio = Some (Normal tt, released_studio).
Proof.
  refine (proj1 (@release_drops_the_element browser studio 0 track _)).
  reflexivity.
Defined.

Lemma acknowledgements_cache_position_witness :
  (do _ <- @Bridge.seekTo browser 0 (VNum 1500); Bridge.resume (KSeekTo 0) (VNum 1.5))
    bridge_studio
  = Some (Normal tt,
          World [set_position (VNum 1.5) bridge_track] (mediaObjects bridge_studio)
            (trace bridge_studio
               ++ [EvExec (KSeekTo 0) (VFun 2) "NocSonicMedia" "seekToAudio"
                     [VStr "u1"; VNum 1500]])).
Proof.
  refine (proj1 (proj2
    (@acknowledgements_cache_position browser bridge_studio 0 bridge_track
       (VNum 1.5) (VNum 1500) VUndefined _))).
  reflexivity.
Defined.

Lemma bridge_methods_only_ask_witness :
  heap (@Bridge.run browser
          [Bridge.Play 0 VUndefined; Bridge.SeekTo 0 (VNum 1500); Bridge.Stop 0;
           Bridge.SetVolume 0 (VNum 1); Bridge.Release 0] bridge_studio)
  = [bridge_track].
Proof.
  refine (proj1
    (@bridge_methods_only_ask browser bridge_studio
       [Bridge.Play 0 VUndefined; Bridge.SeekTo 0 (VNum 1500); Bridge.Stop 0;
        Bridge.SetVolume 0 (VNum 1); Bridge.Release 0] _)).
  repeat constructor.
Defined.

Lemma onStatus_unhandled_type_witness :
  @Bridge.onStatus browser "u1" (VStr "1") (VNum MEDIA_STOPPED) studio
  = Some (Normal tt,
          log [EvOnStatus "u1" (VStr "1") (VNum MEDIA_STOPPED);
               EvConsoleError "Unhandled NocSonicMedia.onStatus :: " (VStr "1")]
            studio).
Proof.
  refine (proj1
    (@onStatus_unhandled_type browser studio "u1" track (VStr "1")
       (VNum MEDIA_STOPPED) _ _)).
  - exists 0. split; reflexivity.
  - reflexivity.
Defined.


Lemma handles_keep_their_identity_witness :
  ∃ h', heap (@Local.run browser
                [Local.Play 0; Local.Fire 0 (Local.durationchange (VNum 180));
                 Local.New [VStr "other.mp3"] "u1"; Local.Release 0;
                 Local.GetCurrentPosition 0 (VFun 5) (VFun 6)] studio) !! 0
        = Some h'
        ∧ same_identity track h'.
Proof.
  refine (proj2 (@handles_keep_their_identity browser 0 track) _ studio _).
  reflexivity.
Defined.

Lemma clients_keep_to_their_engine_witness :
  elementless
    (@Bridge.run browser
       [Bridge.New track_args "u1"; Bridge.Play 0 VUndefined;
        Bridge.OnStatus "u1" (VNum MEDIA_DURATION) (VNum 180);
        Bridge.Resume (KStop 0) VUndefined] empty_world).
Proof.
  refine (proj1 (@clients_keep_to_their_engine browser) _ empty_world _).
  split; [| constructor]. intros a h Hh. by destruct a.
Defined.

Lemma onStatus_never_raises_witness :
  ∃ w', @Local.onStatus browser "u1" (VNum MEDIA_POSITION) (VStr "soon") studio
        = Some (Normal tt, w').
Proof.
  refine (proj2
    (@onStatus_never_raises browser studio "u1" (VNum MEDIA_POSITION)
       (VStr "soon") _ _ _ _)).
  - exact studio_checked.
  - intros Hnone. discriminate Hnone.
  - reflexivity.
  - reflexivity.
Defined.

Lemma guarded_methods_never_raise_witness :
  ∃ w', @Local.stop browser 0 released_studio = Some (Normal tt, w').
Proof.
  refine (proj1 (proj2 (proj2
    (@guarded_methods_never_raise browser 0 released_studio (set_node None track)
       (VNum 0) VUndefined 0 _ _)))).
  - exact released_studio_checked.
  - exact released_track.
Defined.
